(** * SlotMachine: the spin animation state machine of [src/SlotMachine.tsx]

    A shallow embedding of the reel component's spin logic: the reel
    sequence generator ([pickRandom], [generateItems]), the stop-position
    arithmetic of [spin], the two motion phases ([animate],
    [animateTwistBack]), the completion gate ([completeOnce]) and the
    unmount cleanup, run on an explicit model of the host's timer and
    animation-frame queues.

    Modelling conventions.
    - A JavaScript number is an IEEE double.  Here a finite number is an
      exact rational ([Q]), and the non-finite values a division by zero
      produces are kept ([PInf], [NInf], [NaN]); rounding error, overflow
      and signed zeros are not modelled.
    - Counts and indices ([reelItemCount], [forcedTargetIndex], array
      lengths) are integers ([Z]); tokens and host handles are [nat].
    - [Math.random()] is an oracle: a stream [rnd : nat -> Q] whose n-th
      entry is the n-th draw of one [spin] call, each in [0, 1).
    - Closures handed to [setTimeout] / [requestAnimationFrame] are
      defunctionalised into [Task], holding the variables they capture.
    - Each callback runs at one instant: it sees one reading of
      [performance.now()] and one of [Date.now()] ([Clock]).
    - The props are fixed for the life of the component.
    - Image preloading ([preloadImages]), the sizing from the measured
      container (the [ResizeObserver] callback), the index the render
      marks as centred ([closestToCenterIndex]) and [cn] of [utils/cn.ts]
      are modelled beside the machine, each on its own state: they read
      the state below and do not write it.  The rest of the rendering
      (styles, overlay, keys) is left out.
    - [onSpinStart] / [onSpinEnd] are recorded in a trace; the token and the
      time an event carries are annotations of the model (the callbacks do
      not receive them). *)

From Stdlib Require Import String QArith Qround Qabs Qminmax ZArith List Bool Lia Lqa.
Import ListNotations.

(** ** JavaScript numbers *)

Module Num.

Inductive num : Type :=
| Fin (q : Q)
| PInf
| NInf
| NaN.

(** An integer seen as a number. *)
Definition whole (z : Z) : num := Fin (inject_Z z).

Definition sgn (q : Q) : comparison := (q ?= 0)%Q.

Definition inf_of (c : comparison) : num :=
  match c with Gt => PInf | Lt => NInf | Eq => NaN end.

Definition neg (a : num) : num :=
  match a with
  | Fin q => Fin (- q)
  | PInf => NInf
  | NInf => PInf
  | NaN => NaN
  end.

Definition add (a b : num) : num :=
  match a, b with
  | NaN, _ | _, NaN => NaN
  | Fin x, Fin y => Fin (x + y)
  | PInf, NInf | NInf, PInf => NaN
  | PInf, _ | _, PInf => PInf
  | NInf, _ | _, NInf => NInf
  end.

Definition sub (a b : num) : num := add a (neg b).

Definition mul (a b : num) : num :=
  match a, b with
  | NaN, _ | _, NaN => NaN
  | Fin x, Fin y => Fin (x * y)
  | Fin x, PInf | PInf, Fin x => inf_of (sgn x)
  | Fin x, NInf | NInf, Fin x => inf_of (CompOpp (sgn x))
  | PInf, PInf | NInf, NInf => PInf
  | PInf, NInf | NInf, PInf => NInf
  end.

(** [x / 0] is an infinity of the sign of [x], and [0 / 0] is [NaN]. *)
Definition div (a b : num) : num :=
  match a, b with
  | NaN, _ | _, NaN => NaN
  | Fin x, Fin y => if Qeq_bool y 0 then inf_of (sgn x) else Fin (x / y)
  | Fin _, PInf | Fin _, NInf => Fin 0
  | PInf, Fin y => match sgn y with Lt => NInf | _ => PInf end
  | NInf, Fin y => match sgn y with Lt => PInf | _ => NInf end
  | _, _ => NaN
  end.

(** [a <= b] and [a < b]; both are false when an operand is [NaN]. *)
Definition leb (a b : num) : bool :=
  match a, b with
  | NaN, _ | _, NaN => false
  | Fin x, Fin y => Qle_bool x y
  | NInf, _ | _, PInf => true
  | _, _ => false
  end.

Definition ltb (a b : num) : bool :=
  match a, b with
  | NaN, _ | _, NaN => false
  | Fin x, Fin y => negb (Qle_bool y x)
  | PInf, _ | _, NInf => false
  | _, _ => true
  end.

(** [Math.min] and [Math.max]: [NaN] when an operand is [NaN]. *)
Definition min (a b : num) : num :=
  match a, b with
  | NaN, _ | _, NaN => NaN
  | _, _ => if leb a b then a else b
  end.

Definition max (a b : num) : num :=
  match a, b with
  | NaN, _ | _, NaN => NaN
  | _, _ => if leb a b then b else a
  end.

(** [Math.round]: the nearest integer, halves towards plus infinity. *)
Definition round (a : num) : num :=
  match a with
  | Fin q => whole (Qfloor (q + (1 # 2)))
  | _ => a
  end.

(** [Math.pow(a, 3)]. *)
Definition pow3 (a : num) : num := mul (mul a a) a.

(** Equality of numbers up to the representation of a rational. *)
Definition equiv (a b : num) : Prop :=
  match a, b with
  | Fin x, Fin y => x == y
  | PInf, PInf | NInf, NInf | NaN, NaN => True
  | _, _ => False
  end.

End Num.

Import Num.

(** ** Props and constants *)

Definition DEFAULT_REEL_ITEMS : Z := 35.
Definition DEFAULT_FORCED_TARGET_INDEX : Z := 30.
Definition STOP_OFFSET_RATIO : Q := 49 # 100.

(** The props the spin logic reads.  [itemSize] is the item size in pixels
    the render computed (the [itemSize] prop, or the size derived from the
    measured container); [placeholder] is the object
    [{ id: "", image: placeholderImage, name: "" }] that [pickRandom]
    returns for an empty pool. *)
Record Props (T : Type) : Type := mkProps {
  itemsPool : list T;
  forcedResult : option T;
  duration : Q;
  twistDuration : Q;
  itemSize : Q;
  itemGap : Q;
  reelItemCount : Z;
  forcedTargetIndex : Z;
  placeholder : T
}.

Arguments mkProps {T}.
Arguments itemsPool {T}.
Arguments forcedResult {T}.
Arguments duration {T}.
Arguments twistDuration {T}.
Arguments itemSize {T}.
Arguments itemGap {T}.
Arguments reelItemCount {T}.
Arguments forcedTargetIndex {T}.
Arguments placeholder {T}.

(** One reading of the two clocks the code uses: [performance.now()]
    (fractional milliseconds) and [Date.now()] (whole milliseconds). *)
Record Clock : Type := mkClock { perf : Q; date : Z }.

(** [Math.random()] always lies in [0, 1). *)
Definition valid_rnd (rnd : nat -> Q) : Prop :=
  forall n, 0 <= rnd n /\ rnd n < 1.

Definition zlen {A : Type} (l : list A) : Z := Z.of_nat (length l).

Section Reel.

Context {T : Type}.
Variable p : Props T.

Definition forcedBaseCount : Z := forcedTargetIndex p + 1.
Definition forcedTailCount : Z := reelItemCount p - forcedBaseCount.
Definition itemTotal : Q := itemSize p + itemGap p * 2.

(** *** Reel sequence generator *)

(** [pickRandom], given the value [r] of its [Math.random()] call.  For
    [r] in [0, 1) the index is within the pool (see
    [pickRandom_index_in_range]), so the default of [nth] is never
    returned for a non-empty pool. *)
Definition pickRandom (r : Q) : T :=
  match itemsPool p with
  | [] => placeholder p
  | _ :: _ =>
      let i := Qfloor (r * inject_Z (zlen (itemsPool p))) in
      nth (Z.to_nat i) (itemsPool p) (placeholder p)
  end.

(** The loop of [generateItems]: [n] calls of [pickRandom], consuming the
    draws [k], [k+1], ... of the stream. *)
Fixpoint generate (n : nat) (rnd : nat -> Q) (k : nat) : list T :=
  match n with
  | O => []
  | S n' => pickRandom (rnd k) :: generate n' rnd (S k)
  end.

(** [for (let i = 0; i < count; i++)]: no iteration when [count <= 0]. *)
Definition generateItems (count : Z) (rnd : nat -> Q) (k : nat) : list T :=
  generate (Z.to_nat count) rnd k.

(** [base[i] = x] on a JavaScript array, as far as [spin] uses it.  A
    negative [i] creates a property named by [i], which is not an element:
    the array, and the spread [...base] taken of it, are unchanged.  An
    index inside the array replaces the element.  An index at or beyond the
    length would extend the array; [spin] stores at [forcedTargetIndex] in
    an array of [forcedTargetIndex + 1] entries, where this does not occur
    ([array_store_base_in_range]). *)
Definition array_store (l : list T) (i : Z) (x : T) : list T :=
  if (0 <=? i)%Z && (i <? zlen l)%Z
  then firstn (Z.to_nat i) l ++ x :: skipn (S (Z.to_nat i)) l
  else l.

Definition isForcedP : bool :=
  match forcedResult p with Some _ => true | None => false end.

(** [updatedItems] of [spin]. *)
Definition buildItems (rnd : nat -> Q) : list T :=
  match forcedResult p with
  | Some forced =>
      let base := generateItems forcedBaseCount rnd 0 in
      let tail := generateItems forcedTailCount rnd (length base) in
      array_store base (forcedTargetIndex p) forced ++ tail
  | None => generateItems (reelItemCount p) rnd 0
  end.

(** *** Stop position *)

Definition centerIndexOf (updatedItems : list T) : Z :=
  (zlen updatedItems / 2)%Z.

Definition targetIndexOf (updatedItems : list T) : Z :=
  if isForcedP then forcedTargetIndex p else (zlen updatedItems - 5)%Z.

(** [(Math.random() - 0.5) * 2 * itemTotal * STOP_OFFSET_RATIO]. *)
Definition randomOffset (r : Q) : Q :=
  (r - (1 # 2)) * 2 * itemTotal * STOP_OFFSET_RATIO.

Definition perfectTargetTranslate (centerIndex targetIndex : Z) : Q :=
  let itemsToMove := (targetIndex - centerIndex)%Z in
  let moveDistance := inject_Z itemsToMove * itemTotal in
  0 - moveDistance.

Definition targetTranslateOf (centerIndex targetIndex : Z) (r : Q) : Q :=
  perfectTargetTranslate centerIndex targetIndex + randomOffset r.

Definition minMs : Q := duration p + twistDuration p.

(** The variables of one [spin] call that its callbacks capture. *)
Record SpinEnv : Type := mkEnv {
  spinToken : nat;
  updatedItems : list T;
  isForced : bool;
  centerIndex : Z;
  targetTranslate : Q
}.

(** The closure environment [spin] builds; the jitter draw follows the
    draws of the sequence. *)
Definition spinEnv (token : nat) (rnd : nat -> Q) : SpinEnv :=
  let items := buildItems rnd in
  {| spinToken := token;
     updatedItems := items;
     isForced := isForcedP;
     centerIndex := centerIndexOf items;
     targetTranslate :=
       targetTranslateOf (centerIndexOf items) (targetIndexOf items)
                         (rnd (length items)) |}.

(** *** Motion profile *)

(** [1 - Math.pow(1 - progress, 3)]. *)
Definition easeOut (progress : num) : num :=
  sub (Fin 1) (pow3 (sub (Fin 1) progress)).

(** [Math.min(elapsed / total, 1)]. *)
Definition progressOf (elapsed : Z) (total : Q) : num :=
  min (div (whole elapsed) (Fin total)) (Fin 1).

Definition startTranslate : Q := 0.

(** [currentTranslateValue] of [animate]. *)
Definition currentTranslateValue (e : SpinEnv) (elapsed : Z) : num :=
  let progress := progressOf elapsed (duration p) in
  let easedProgress := easeOut progress in
  add (Fin startTranslate)
      (mul (sub (Fin (targetTranslate e)) (Fin startTranslate)) easedProgress).

(** The index [animate] resolves when the spin phase ends. *)
Definition closestIndexOf (e : SpinEnv) : num :=
  let closestIndexFloat :=
    sub (whole (centerIndex e)) (div (Fin (targetTranslate e)) (Fin itemTotal)) in
  round closestIndexFloat.

Definition clampedClosestIndexOf (e : SpinEnv) : num :=
  if isForced e
  then whole (Z.max 0 (Z.min (forcedTargetIndex p) (zlen (updatedItems e) - 1)))
  else max (whole 0) (min (closestIndexOf e) (whole (zlen (updatedItems e) - 1))).

Definition perfectPositionFor (e : SpinEnv) (clampedClosestIndex : num) : num :=
  let itemOffsetFromCenter :=
    mul (sub clampedClosestIndex (whole (centerIndex e))) (Fin itemTotal) in
  neg itemOffsetFromCenter.

Definition offsetToPerfectOf (e : SpinEnv) (clampedClosestIndex : num) : num :=
  sub (perfectPositionFor e clampedClosestIndex) (Fin (targetTranslate e)).

(** [twistBackCurrentPosition] of [animateTwistBack]. *)
Definition twistBackCurrentPosition
           (e : SpinEnv) (offsetToPerfect : num) (twistBackElapsed : Z) : num :=
  let twistBackStartPosition := Fin (targetTranslate e) in
  let twistBackProgress := progressOf twistBackElapsed (twistDuration p) in
  let twistBackEased := easeOut twistBackProgress in
  add twistBackStartPosition (mul offsetToPerfect twistBackEased).

End Reel.

(** ** The component and its host *)

(** What the caller observes: [onSpinStart()] and [onSpinEnd(item)].  Each
    event is annotated with the token of the spin it belongs to and with the
    [performance.now()] reading of the code that fired it. *)
Inductive Event (T : Type) : Type :=
| SpinStart (token : nat) (at_ms : Q)
| SpinEnd (token : nat) (item : T) (at_ms : Q).

Arguments SpinStart {T}.
Arguments SpinEnd {T}.

Definition event_token {T : Type} (ev : Event T) : nat :=
  match ev with
  | SpinStart k _ => k
  | SpinEnd k _ _ => k
  end.

Definition is_end {T : Type} (ev : Event T) : bool :=
  match ev with
  | SpinStart _ _ => false
  | SpinEnd _ _ _ => true
  end.

(** The callbacks [spin] hands to the host. *)
Inductive Task (T : Type) : Type :=
| StartTask (e : SpinEnv (T:=T))
    (* the body of [setTimeout(() => {...}, 0)] *)
| Animate (e : SpinEnv (T:=T)) (startTime : Z)
| AnimateTwistBack (e : SpinEnv (T:=T)) (twistBackStartTime : Z)
                   (clampedClosestIndex offsetToPerfect : num)
| CompleteOnce (e : SpinEnv (T:=T)) (selectedIndex : num).
    (* [() => completeOnce(selectedIndex)] *)

Arguments StartTask {T}.
Arguments Animate {T}.
Arguments AnimateTwistBack {T}.
Arguments CompleteOnce {T}.

Definition task_env {T : Type} (t : Task T) : SpinEnv (T:=T) :=
  match t with
  | StartTask e | Animate e _ | AnimateTwistBack e _ _ _ | CompleteOnce e _ => e
  end.

(** The refs and state of the component, the two host queues, and the trace
    of callbacks.  A pending timer is [(id, (delay, task))], a pending frame
    request [(id, task)].  [translate] is the React state of the scroll axis
    ([translateY] or [translateX] by orientation) and [transform] the value
    written to the container's style. *)
Record State (T : Type) : Type := mkState {
  isSpinningRef : bool;
  spinTokenRef : nat;
  completedTokenRef : option nat;
  spinStartedAtRef : Q;
  animationFrameRef : option nat;
  startTimeoutRef : option nat;
  finishTimeoutRef : option nat;
  twistFinishTimeoutRef : option nat;
  rafTickRef : nat;
  isSpinning : bool;
  translate : num;
  transform : num;
  items : list T;
  timers : list (nat * (Z * Task T));
  frames : list (nat * Task T);
  nextId : nat;
  trace : list (Event T)
}.

Arguments mkState {T}.
Arguments isSpinningRef {T}.
Arguments spinTokenRef {T}.
Arguments completedTokenRef {T}.
Arguments spinStartedAtRef {T}.
Arguments animationFrameRef {T}.
Arguments startTimeoutRef {T}.
Arguments finishTimeoutRef {T}.
Arguments twistFinishTimeoutRef {T}.
Arguments rafTickRef {T}.
Arguments isSpinning {T}.
Arguments translate {T}.
Arguments transform {T}.
Arguments items {T}.
Arguments timers {T}.
Arguments frames {T}.
Arguments nextId {T}.
Arguments trace {T}.

(** What the caller and the host can do to a mounted component. *)
Inductive Action : Type :=
| CallSpin (now : Q) (rnd : nat -> Q)
| TimerFires (id : nat) (c : Clock)
| FrameFires (id : nat) (c : Clock)
| Unmount.

Section Machine.

Context {T : Type}.
Variable p : Props T.

Local Abbreviation State := (State T).
Local Abbreviation Task := (Task T).
Local Abbreviation SpinEnv := (SpinEnv (T:=T)).

(** *** Host primitives *)

Definition remove_id {A : Type} (id : nat) (q : list (nat * A)) : list (nat * A) :=
  filter (fun e => negb (Nat.eqb (fst e) id)) q.

Fixpoint find_id {A : Type} (id : nat) (q : list (nat * A)) : option A :=
  match q with
  | [] => None
  | (i, a) :: q' => if Nat.eqb i id then Some a else find_id id q'
  end.

(** [clearTimeout(r.current)] when [r.current != null]. *)
Definition clear_opt {A : Type} (r : option nat) (q : list (nat * A)) : list (nat * A) :=
  match r with
  | Some id => remove_id id q
  | None => q
  end.

Definition initial : State :=
  {| isSpinningRef := false; spinTokenRef := 0; completedTokenRef := None;
     spinStartedAtRef := 0;
     animationFrameRef := None; startTimeoutRef := None;
     finishTimeoutRef := None; twistFinishTimeoutRef := None;
     rafTickRef := 0;
     isSpinning := false; translate := Fin 0; transform := Fin 0; items := [];
     timers := []; frames := []; nextId := 1;
     trace := [] |}.

(** The mount effect: with a non-empty pool the reel is filled with
    [reelItemCount] random items. *)
Definition mount (rnd : nat -> Q) : State :=
  match itemsPool p with
  | [] => initial
  | _ :: _ =>
      {| isSpinningRef := false; spinTokenRef := 0; completedTokenRef := None;
         spinStartedAtRef := 0;
         animationFrameRef := None; startTimeoutRef := None;
         finishTimeoutRef := None; twistFinishTimeoutRef := None;
         rafTickRef := 0;
         isSpinning := false; translate := Fin 0; transform := Fin 0;
         items := generateItems p (reelItemCount p) rnd 0;
         timers := []; frames := []; nextId := 1;
         trace := [] |}
  end.

(** *** [spin] *)

Definition spin (now : Q) (rnd : nat -> Q) (s : State) : State :=
  if isSpinningRef s || (length (itemsPool p) =? 0)%nat then s
  else
    let spinToken := S (spinTokenRef s) in
    let e := spinEnv p spinToken rnd in
    let id := nextId s in
    {| isSpinningRef := true;
       spinTokenRef := spinToken;
       completedTokenRef := None;
       spinStartedAtRef := now;
       animationFrameRef := None;
       startTimeoutRef := Some id;
       finishTimeoutRef := None;
       twistFinishTimeoutRef := None;
       rafTickRef := 0;
       isSpinning := true;
       translate := Fin 0;
       transform := transform s;
       items := updatedItems e;
       timers :=
         clear_opt (twistFinishTimeoutRef s)
           (clear_opt (finishTimeoutRef s)
              (clear_opt (startTimeoutRef s) (timers s)))
         ++ [(id, (0%Z, StartTask e))];
       frames := clear_opt (animationFrameRef s) (frames s);
       nextId := S id;
       trace := trace s ++ [SpinStart spinToken now] |}.

(** *** [completeOnce] *)

Definition token_eqb (o : option nat) (k : nat) : bool :=
  match o with Some j => Nat.eqb j k | None => false end.

Definition qltb (a b : Q) : bool := negb (Qle_bool b a).

(** [updatedItems[selectedIndex]] under the guard
    [selectedIndex >= 0 && selectedIndex < updatedItems.length]. *)
Definition guarded_item (e : SpinEnv) (selectedIndex : num) : option T :=
  if leb (whole 0) selectedIndex && ltb selectedIndex (whole (zlen (updatedItems e)))
  then match selectedIndex with
       | Fin q => nth_error (updatedItems e) (Z.to_nat (Qfloor q))
       | _ => None
       end
  else None.

Definition completeOnce (e : SpinEnv) (selectedIndex : num) (c : Clock) (s : State) : State :=
  if negb (Nat.eqb (spinToken e) (spinTokenRef s)) then s
  else if token_eqb (completedTokenRef s) (spinToken e) then s
  else
    let now := perf c in
    let elapsed := now - spinStartedAtRef s in
    if qltb elapsed (minMs p) then
      let remaining := Z.max 0 (Qceiling (minMs p - elapsed)) in
      let id := nextId s in
      {| isSpinningRef := isSpinningRef s; spinTokenRef := spinTokenRef s;
         completedTokenRef := completedTokenRef s;
         spinStartedAtRef := spinStartedAtRef s;
         animationFrameRef := animationFrameRef s;
         startTimeoutRef := startTimeoutRef s;
         finishTimeoutRef := Some id;
         twistFinishTimeoutRef := twistFinishTimeoutRef s;
         rafTickRef := rafTickRef s;
         isSpinning := isSpinning s; translate := translate s;
         transform := transform s; items := items s;
         timers := timers s ++ [(id, (remaining, CompleteOnce e selectedIndex))];
         frames := frames s; nextId := S id;
         trace := trace s |}
    else
      {| isSpinningRef := false; spinTokenRef := spinTokenRef s;
         completedTokenRef := Some (spinToken e);
         spinStartedAtRef := spinStartedAtRef s;
         animationFrameRef := animationFrameRef s;
         startTimeoutRef := startTimeoutRef s;
         finishTimeoutRef := finishTimeoutRef s;
         twistFinishTimeoutRef := twistFinishTimeoutRef s;
         rafTickRef := rafTickRef s;
         isSpinning := false; translate := translate s;
         transform := transform s; items := items s;
         timers := timers s; frames := frames s; nextId := nextId s;
         trace :=
           match guarded_item e selectedIndex with
           | Some item => trace s ++ [SpinEnd (spinToken e) item now]
           | None => trace s
           end |}.

(** *** The frame callbacks *)

Definition set_timers (q : list (nat * (Z * Task))) (s : State) : State :=
  {| isSpinningRef := isSpinningRef s; spinTokenRef := spinTokenRef s;
     completedTokenRef := completedTokenRef s;
     spinStartedAtRef := spinStartedAtRef s;
     animationFrameRef := animationFrameRef s;
     startTimeoutRef := startTimeoutRef s;
     finishTimeoutRef := finishTimeoutRef s;
     twistFinishTimeoutRef := twistFinishTimeoutRef s;
     rafTickRef := rafTickRef s;
     isSpinning := isSpinning s; translate := translate s;
     transform := transform s; items := items s;
     timers := q; frames := frames s; nextId := nextId s;
     trace := trace s |}.

Definition set_frames (q : list (nat * Task)) (s : State) : State :=
  {| isSpinningRef := isSpinningRef s; spinTokenRef := spinTokenRef s;
     completedTokenRef := completedTokenRef s;
     spinStartedAtRef := spinStartedAtRef s;
     animationFrameRef := animationFrameRef s;
     startTimeoutRef := startTimeoutRef s;
     finishTimeoutRef := finishTimeoutRef s;
     twistFinishTimeoutRef := twistFinishTimeoutRef s;
     rafTickRef := rafTickRef s;
     isSpinning := isSpinning s; translate := translate s;
     transform := transform s; items := items s;
     timers := timers s; frames := q; nextId := nextId s;
     trace := trace s |}.

(** [animationFrameRef.current = requestAnimationFrame(t)]. *)
Definition requestFrame (t : Task) (s : State) : State :=
  let id := nextId s in
  {| isSpinningRef := isSpinningRef s; spinTokenRef := spinTokenRef s;
     completedTokenRef := completedTokenRef s;
     spinStartedAtRef := spinStartedAtRef s;
     animationFrameRef := Some id;
     startTimeoutRef := startTimeoutRef s;
     finishTimeoutRef := finishTimeoutRef s;
     twistFinishTimeoutRef := twistFinishTimeoutRef s;
     rafTickRef := rafTickRef s;
     isSpinning := isSpinning s; translate := translate s;
     transform := transform s; items := items s;
     timers := timers s; frames := frames s ++ [(id, t)]; nextId := S id;
     trace := trace s |}.

(** The part of a frame callback that publishes the position: the
    container's transform (the container is rendered when the reel has
    items), the tick counter, and the React state on every second tick. *)
Definition publish (position : num) (s : State) : State :=
  let tick := S (rafTickRef s) in
  {| isSpinningRef := isSpinningRef s; spinTokenRef := spinTokenRef s;
     completedTokenRef := completedTokenRef s;
     spinStartedAtRef := spinStartedAtRef s;
     animationFrameRef := animationFrameRef s;
     startTimeoutRef := startTimeoutRef s;
     finishTimeoutRef := finishTimeoutRef s;
     twistFinishTimeoutRef := twistFinishTimeoutRef s;
     rafTickRef := tick;
     isSpinning := isSpinning s;
     translate := if Nat.even tick then position else translate s;
     transform := match items s with [] => transform s | _ :: _ => position end;
     items := items s;
     timers := timers s; frames := frames s; nextId := nextId s;
     trace := trace s |}.

(** The end of [animateTwistBack]: the final position goes to the React
    state and [completeOnce] is scheduled 50 ms later. *)
Definition settle (position : num) (t : Task) (s : State) : State :=
  let id := nextId s in
  {| isSpinningRef := isSpinningRef s; spinTokenRef := spinTokenRef s;
     completedTokenRef := completedTokenRef s;
     spinStartedAtRef := spinStartedAtRef s;
     animationFrameRef := animationFrameRef s;
     startTimeoutRef := startTimeoutRef s;
     finishTimeoutRef := finishTimeoutRef s;
     twistFinishTimeoutRef := Some id;
     rafTickRef := rafTickRef s;
     isSpinning := isSpinning s; translate := position;
     transform := transform s; items := items s;
     timers := timers s ++ [(id, (50%Z, t))]; frames := frames s;
     nextId := S id;
     trace := trace s |}.

Definition animate (e : SpinEnv) (startTime : Z) (c : Clock) (s : State) : State :=
  if negb (Nat.eqb (spinToken e) (spinTokenRef s)) then s
  else
    let elapsed := (date c - startTime)%Z in
    let progress := progressOf elapsed (duration p) in
    let s1 := publish (currentTranslateValue p e elapsed) s in
    if ltb progress (Fin 1) then requestFrame (Animate e startTime) s1
    else
      let clampedClosestIndex := clampedClosestIndexOf p e in
      let offsetToPerfect := offsetToPerfectOf p e clampedClosestIndex in
      let twistBackStartTime := date c in
      requestFrame
        (AnimateTwistBack e twistBackStartTime clampedClosestIndex offsetToPerfect)
        s1.

Definition animateTwistBack (e : SpinEnv) (twistBackStartTime : Z)
           (clampedClosestIndex offsetToPerfect : num)
           (c : Clock) (s : State) : State :=
  if negb (Nat.eqb (spinToken e) (spinTokenRef s)) then s
  else
    let twistBackElapsed := (date c - twistBackStartTime)%Z in
    let twistBackProgress := progressOf twistBackElapsed (twistDuration p) in
    let position := twistBackCurrentPosition p e offsetToPerfect twistBackElapsed in
    let s1 := publish position s in
    if ltb twistBackProgress (Fin 1) then
      requestFrame
        (AnimateTwistBack e twistBackStartTime clampedClosestIndex offsetToPerfect)
        s1
    else settle position (CompleteOnce e clampedClosestIndex) s1.

(** Running a callback the host took from a queue. *)
Definition run_task (t : Task) (c : Clock) (s : State) : State :=
  match t with
  | StartTask e =>
      let startTime := date c in
      requestFrame (Animate e startTime) s
  | Animate e startTime => animate e startTime c s
  | AnimateTwistBack e t0 i off => animateTwistBack e t0 i off c s
  | CompleteOnce e i => completeOnce e i c s
  end.

Definition fire_timer (id : nat) (c : Clock) (s : State) : State :=
  match find_id id (timers s) with
  | Some (_, t) => run_task t c (set_timers (remove_id id (timers s)) s)
  | None => s
  end.

Definition fire_frame (id : nat) (c : Clock) (s : State) : State :=
  match find_id id (frames s) with
  | Some t => run_task t c (set_frames (remove_id id (frames s)) s)
  | None => s
  end.

(** *** Teardown: the cleanup of the unmount effect *)

Definition unmount (s : State) : State :=
  {| isSpinningRef := false; spinTokenRef := spinTokenRef s;
     completedTokenRef := None;
     spinStartedAtRef := spinStartedAtRef s;
     animationFrameRef := animationFrameRef s;
     startTimeoutRef := startTimeoutRef s;
     finishTimeoutRef := finishTimeoutRef s;
     twistFinishTimeoutRef := twistFinishTimeoutRef s;
     rafTickRef := rafTickRef s;
     isSpinning := isSpinning s; translate := translate s;
     transform := transform s; items := items s;
     timers :=
       clear_opt (twistFinishTimeoutRef s)
         (clear_opt (finishTimeoutRef s)
            (clear_opt (startTimeoutRef s) (timers s)));
     frames := clear_opt (animationFrameRef s) (frames s);
     nextId := nextId s;
     trace := trace s |}.

(** *** Runs *)

Definition step (a : Action) (s : State) : State :=
  match a with
  | CallSpin now rnd => spin now rnd s
  | TimerFires id c => fire_timer id c s
  | FrameFires id c => fire_frame id c s
  | Unmount => unmount s
  end.

Definition run (acts : list Action) (s : State) : State :=
  fold_left (fun st a => step a st) acts s.

(** The random streams of an action obey [Math.random]'s contract. *)
Definition valid_action (a : Action) : Prop :=
  match a with
  | CallSpin _ rnd => valid_rnd rnd
  | _ => True
  end.

(** The states a component can be in. *)
Inductive Reachable : State -> Prop :=
| reach_mount rnd : valid_rnd rnd -> Reachable (mount rnd)
| reach_step a s : Reachable s -> valid_action a -> Reachable (step a s).

(** The host alone: it runs the callback at the head of the timer queue,
    or else the one at the head of the frame queue. *)
Definition host_step (c : Clock) (s : State) : State :=
  match timers s, frames s with
  | (id, _) :: _, _ => fire_timer id c s
  | [], (id, _) :: _ => fire_frame id c s
  | [], [] => s
  end.

(** [n] host steps, the [i]-th seeing the clock reading [clock i]. *)
Fixpoint host_run (clock : nat -> Clock) (i n : nat) (s : State) : State :=
  match n with
  | O => s
  | S n' => host_run clock (S i) n' (host_step (clock i) s)
  end.

End Machine.

(** ** Vocabulary of the statements *)

Section Vocabulary.

Context {T : Type}.
Variable p : Props T.

Local Abbreviation State := (State T).
Local Abbreviation Task := (Task T).
Local Abbreviation SpinEnv := (SpinEnv (T:=T)).

(** An environment built by a [spin] call that passed its guard. *)
Definition env_ok (e : SpinEnv) (k : nat) : Prop :=
  itemsPool p <> [] /\ exists rnd, valid_rnd rnd /\ e = spinEnv p k rnd.

(** What [onSpinEnd] may be given: the forced item when there is one (and
    its index is an index), an item of the pool otherwise. *)
Definition delivered_ok (x : T) : Prop :=
  match forcedResult p with
  | Some forced => (0 <= forcedTargetIndex p)%Z -> x = forced
  | None => In x (itemsPool p)
  end.

(** The configurations in which a spin runs to its end and has an item to
    report: positive durations and, for a forced spin, a non-negative index,
    for a random spin, a reel of at least one item with a non-zero
    footprint. *)
Definition valid_config : Prop :=
  0 < duration p /\ 0 < twistDuration p /\
  match forcedResult p with
  | Some _ => (0 <= forcedTargetIndex p)%Z
  | None => (1 <= reelItemCount p)%Z /\ ~ itemTotal p == 0
  end.

(** How often [onSpinEnd] fired for token [k]. *)
Definition ends_of (k : nat) (tr : list (Event T)) : nat :=
  length (filter (fun ev => is_end ev && Nat.eqb (event_token ev) k) tr).

(** A pending callback belongs to the current spin and carries the index
    that spin resolves to. *)
Definition task_ok (t : Task) (k : nat) : Prop :=
  env_ok (task_env t) k /\
  match t with
  | AnimateTwistBack e _ i off =>
      i = clampedClosestIndexOf p e /\ off = offsetToPerfectOf p e i
  | CompleteOnce e i => i = clampedClosestIndexOf p e
  | _ => True
  end.

(** The host holds at most one callback of the component, and the ref of
    its kind names it. *)
Inductive Pending (s : State) : Prop :=
| pending_none :
    timers s = [] -> frames s = [] -> isSpinningRef s = false -> Pending s
| pending_timer id d t :
    timers s = [(id, (d, t))] -> frames s = [] ->
    isSpinningRef s = true -> completedTokenRef s = None ->
    task_ok t (spinTokenRef s) ->
    (startTimeoutRef s = Some id \/ finishTimeoutRef s = Some id
     \/ twistFinishTimeoutRef s = Some id) ->
    Pending s
| pending_frame id t :
    frames s = [(id, t)] -> timers s = [] ->
    isSpinningRef s = true -> completedTokenRef s = None ->
    task_ok t (spinTokenRef s) ->
    animationFrameRef s = Some id ->
    Pending s.

(** What the trace of a reachable state satisfies. *)
Record TraceInv (s : State) : Prop := {
  tokens_bounded :
    forall ev, In ev (trace s) -> (1 <= event_token ev <= spinTokenRef s)%nat;
  ends_once : forall k, (ends_of k (trace s) <= 1)%nat;
  start_unique :
    forall k t t', In (SpinStart k t) (trace s) ->
                   In (SpinStart k t') (trace s) -> t = t';
  live_start :
    isSpinningRef s = true ->
    In (SpinStart (spinTokenRef s) (spinStartedAtRef s)) (trace s)
    /\ ends_of (spinTokenRef s) (trace s) = 0%nat;
  end_timing :
    forall k x t, In (SpinEnd k x t) (trace s) ->
                  exists t0, In (SpinStart k t0) (trace s)
                             /\ t0 + minMs p <= t;
  end_item :
    forall k x t, In (SpinEnd k x t) (trace s) -> delivered_ok x
}.

Definition Inv (s : State) : Prop := Pending s /\ TraceInv s.

(** A state between the host taking a callback off its queue and the
    callback running. *)
Record Dispatched (s : State) : Prop := {
  d_timers : timers s = [];
  d_frames : frames s = [];
  d_live : isSpinningRef s = true;
  d_completed : completedTokenRef s = None;
  d_trace : TraceInv s
}.

(** Both clocks eventually pass every bound. *)
Definition clocks_advance (clock : nat -> Clock) : Prop :=
  (forall (B : Z) (n : nat), exists m, (n <= m)%nat /\ (B <= date (clock m))%Z)
  /\ (forall (B : Q) (n : nat), exists m, (n <= m)%nat /\ B <= perf (clock m)).

(** The spin of environment [e], started at [t0] with the trace [tr], is
    under way. *)
Record Live (e : SpinEnv) (tr : list (Event T)) (t0 : Q) (s : State) : Prop := {
  lv_token : spinTokenRef s = spinToken e;
  lv_completed : completedTokenRef s = None;
  lv_started : spinStartedAtRef s = t0;
  lv_trace : trace s = tr;
  lv_spinning : isSpinningRef s = true
}.

(** The callback a live spin is waiting for. *)
Inductive Phase : Type :=
| PhStart
| PhAnimate (startTime : Z)
| PhTwist (twistBackStartTime : Z)
| PhComplete.

Definition resolved (e : SpinEnv) : num := clampedClosestIndexOf p e.

Definition in_phase (e : SpinEnv) (tr : list (Event T)) (t0 : Q)
           (ph : Phase) (s : State) : Prop :=
  Live e tr t0 s /\
  match ph with
  | PhStart =>
      frames s = [] /\ exists id d, timers s = [(id, (d, StartTask e))]
  | PhAnimate st =>
      timers s = [] /\ exists id, frames s = [(id, Animate e st)]
  | PhTwist ts =>
      timers s = [] /\
      exists id, frames s =
                 [(id, AnimateTwistBack e ts (resolved e)
                         (offsetToPerfectOf p e (resolved e)))]
  | PhComplete =>
      frames s = [] /\
      exists id d, timers s = [(id, (d, CompleteOnce e (resolved e)))]
  end.

(** The spin is over: nothing is pending and the result, if the resolved
    index holds one, was reported at [t1]. *)
Definition finished (e : SpinEnv) (tr : list (Event T)) (t1 : Q) (s : State) : Prop :=
  timers s = [] /\ frames s = [] /\ isSpinningRef s = false /\
  trace s = match guarded_item e (resolved e) with
            | Some item => tr ++ [SpinEnd (spinToken e) item t1]
            | None => tr
            end.

(** The events a step of the host adds: [onSpinEnd] calls for token [k]. *)
Definition ends_for (k : nat) (new : list (Event T)) : Prop :=
  forall ev, In ev new -> exists x t, ev = SpinEnd k x t.

(** The position that centres the item of index [z]. *)
Definition perfectPositionQ (e : SpinEnv) (z : Z) : Q :=
  - ((inject_Z z - inject_Z (centerIndex e)) * itemTotal p).

End Vocabulary.

(** A host action: a timer or a frame callback fires. *)
Definition host_action (a : Action) : Prop :=
  match a with
  | TimerFires _ _ | FrameFires _ _ => True
  | _ => False
  end.

(** *** The motion law in the words of the specification *)

(** [ease(p) = 1 - (1-p)^3]. *)
Definition ease (q : Q) : Q := 1 - (1 - q) ^ 3.

(** [position(t) = start + (target - start) * ease(min(t/duration, 1))]. *)
Definition position_law (start target t total : Q) : Q :=
  start + (target - start) * ease (Qmin (t / total) 1).

(** ** A concrete reel

    The example of the specification: the pool [A, B, C], a reel of 35
    items, the result forced to [B] at index 30, a spin of 2500 ms and a
    twist-back of 400 ms; items of 80 px with a gap of 20 px.  The host runs
    one callback every 16 ms and the draws cycle through the pool. *)

Definition demo_pool : list string := ["A"; "B"; "C"]%string.

Definition demo_forced : Props string :=
  mkProps demo_pool (Some "B"%string) 2500 400 80 20
          DEFAULT_REEL_ITEMS DEFAULT_FORCED_TARGET_INDEX ""%string.

Definition demo_random : Props string :=
  mkProps demo_pool None 2500 400 80 20
          DEFAULT_REEL_ITEMS DEFAULT_FORCED_TARGET_INDEX ""%string.

(** The same reel with an empty pool. *)
Definition demo_empty : Props string :=
  mkProps [] None 2500 400 80 20
          DEFAULT_REEL_ITEMS DEFAULT_FORCED_TARGET_INDEX ""%string.

(** A forced item [Z] that is not in the pool, at an index beyond the reel
    and at a negative index. *)
Definition demo_beyond : Props string :=
  mkProps demo_pool (Some "Z"%string) 2500 400 80 20 35 40 ""%string.

Definition demo_negative : Props string :=
  mkProps demo_pool (Some "Z"%string) 2500 400 80 20 35 (-1) ""%string.

(** Configurations that are not valid: a reel of no items, and items
    without footprint. *)
Definition demo_no_reel : Props string :=
  mkProps demo_pool None 2500 400 80 20 0 DEFAULT_FORCED_TARGET_INDEX ""%string.

Definition demo_flat : Props string :=
  mkProps demo_pool None 2500 400 0 0
          DEFAULT_REEL_ITEMS DEFAULT_FORCED_TARGET_INDEX ""%string.

(** Draws [1/12, 5/12, 9/12, 1/12, ...]. *)
Definition demo_rnd (n : nat) : Q :=
  Qmake (4 * Z.of_nat (n mod 3) + 1) 12.

Definition demo_clock (i : nat) : Clock :=
  mkClock (inject_Z (16 * Z.of_nat i)) (16 * Z.of_nat i).

(** * Beside the machine: class names, sizing, the centred item, preloading *)

(** ** Class names ([utils/cn.ts]) *)

(** An argument of [cn]: [string | undefined | null | false]. *)
Inductive ClassArg : Type :=
| ClassName (s : string)
| ClassUndefined
| ClassNull
| ClassFalse.

(** [Boolean(c)]: only a non-empty string is truthy. *)
Definition class_truthy (c : ClassArg) : bool :=
  match c with
  | ClassName s => negb (String.eqb s EmptyString)
  | _ => false
  end.

(** The text [Array.prototype.join] gives an element. *)
Definition class_text (c : ClassArg) : string :=
  match c with
  | ClassName s => s
  | ClassUndefined | ClassNull => EmptyString
  | ClassFalse => "false"%string
  end.

(** [classes.filter(Boolean)], each element as [join] prints it. *)
Definition kept (classes : list ClassArg) : list string :=
  map class_text (filter class_truthy classes).

(** [classes.filter(Boolean).join(" ")]. *)
Definition cn (classes : list ClassArg) : string :=
  String.concat " "%string (kept classes).

(** ** Sizing from the measured container *)

(** The [contentRect] of a [ResizeObserver] entry. *)
Record Rect : Type := mkRect { width : Q; height : Q }.

Definition axisMax (isVertical : bool) : Z := if isVertical then 80 else 160.

(** [entries[0]?.contentRect ?? { width: 0, height: 0 }], then the side
    along the scroll axis. *)
Definition observedSize (isVertical : bool) (entries : list Rect) : Q :=
  match entries with
  | [] => 0
  | r :: _ => if isVertical then height r else width r
  end.

(** [Math.max(40, Math.min(size ? Math.floor(size / 3) : 80, isVertical ? 80 : 160))]. *)
Definition suggestedSize (isVertical : bool) (size : Q) : Z :=
  Z.max 40 (Z.min (if Qeq_bool size 0 then 80 else Qfloor (size / 3))
                  (axisMax isVertical)).

(** [lastMeasuredRef] and the [measuredSize] state. *)
Record Measure : Type := mkMeasure { lastMeasuredRef : Z; measuredSize : Z }.

Definition initialMeasure : Measure :=
  {| lastMeasuredRef := 0; measuredSize := 0 |}.

(** The [ResizeObserver] callback. *)
Definition onResize (isVertical : bool) (entries : list Rect) (m : Measure) : Measure :=
  let suggested := suggestedSize isVertical (observedSize isVertical entries) in
  if (suggested =? lastMeasuredRef m)%Z then m
  else {| lastMeasuredRef := suggested; measuredSize := suggested |}.

(** The measures a component of fixed orientation goes through. *)
Definition measureAfter (isVertical : bool) (resizes : list (list Rect)) : Measure :=
  fold_left (fun m entries => onResize isVertical entries m) resizes initialMeasure.

(** [propItemSize ?? (isVertical ? Math.min(measuredSize || 80, 80)
                                  : Math.min(measuredSize || 160, 160))]. *)
Definition itemSizeOf (propItemSize : option Q) (isVertical : bool)
           (measuredSize : Z) : Q :=
  match propItemSize with
  | Some size => size
  | None =>
      inject_Z
        (if isVertical
         then Z.min (if (measuredSize =? 0)%Z then 80 else measuredSize) 80
         else Z.min (if (measuredSize =? 0)%Z then 160 else measuredSize) 160)
  end.

(** ** The share of a phase *)

(** The eased share of the way a phase of length [total] has covered
    after [elapsed] milliseconds. *)
Definition easedShare (total : Q) (elapsed : Z) : Q :=
  ease (Qmin (inject_Z elapsed / total) 1).

(** ** The centred item *)

Section Centre.

Context {T : Type}.
Variable p : Props T.

(** [getItemPosition]: [(index - centerIndex) * itemTotal]. *)
Definition getItemPosition (index centerIndex : Z) : Q :=
  inject_Z (index - centerIndex) * itemTotal p.

(** The [closestToCenterIndex] memo, for the items and the translate of the
    scroll axis. *)
Definition closestToCenterIndex (items : list T) (currentTranslate : num) : num :=
  match items with
  | [] => whole 0
  | _ :: _ =>
      let centerIndex := (zlen items / 2)%Z in
      let closestIndexFloat :=
        sub (whole centerIndex) (div currentTranslate (Fin (itemTotal p))) in
      let closestIndex := round closestIndexFloat in
      max (whole 0) (min closestIndex (whole (zlen items - 1)))
  end.

(** The target index of a spin is an index of its sequence: a forced
    index that is not negative, or a reel of at least five items (the random
    target is the fifth from the end) with a non-zero footprint. *)
Definition target_in_reel : Prop :=
  match forcedResult p with
  | Some _ => (0 <= forcedTargetIndex p)%Z
  | None => (5 <= reelItemCount p)%Z /\ ~ itemTotal p == 0
  end.


End Centre.

(** ** Image preloading *)

Section Preload.

Context {T : Type}.

(** The accessor given as [getItemImage] and the [image] field of an item. *)
Variable getItemImage : T -> string.
Variable itemImage : T -> string.

Definition seen_has (seen : list string) (url : string) : bool :=
  existsb (String.eqb url) seen.

(** [getItemImage(item) || item.image]. *)
Definition preloadUrl (item : T) : string :=
  if String.eqb (getItemImage item) EmptyString then itemImage item
  else getItemImage item.

(** [preloadImages]: the set [preloadedImagesRef] (in insertion order) and
    the images requested ([new window.Image().src = url]), oldest first. *)
Fixpoint preloadImages (batch : list T) (seen requested : list string)
  : list string * list string :=
  match batch with
  | [] => (seen, requested)
  | item :: rest =>
      let url := preloadUrl item in
      if negb (String.eqb url EmptyString) && negb (seen_has seen url)
      then preloadImages rest (seen ++ [url]) (requested ++ [url])
      else preloadImages rest seen requested
  end.

(** What a batch can make [preloadImages] request: the non-empty URLs of
    its items. *)
Definition url_of (batch : list T) (url : string) : Prop :=
  url <> EmptyString /\ exists item, In item batch /\ preloadUrl item = url.

(** The calls of [preloadImages] a component makes, in order, on the set it
    starts with (empty). *)
Definition preloadAll (batches : list (list T)) : list string * list string :=
  fold_left (fun st batch => preloadImages batch (fst st) (snd st))
            batches ([], []).

End Preload.

(** ** Orderly traces *)

(** [Paired n closed tr]: the trace [tr] announces the spins [1 .. n] in
    order, each [onSpinEnd] directly after the [onSpinStart] of its spin;
    [closed] tells whether the last spin has reported its end. *)
Inductive Paired {T : Type} : nat -> bool -> list (Event T) -> Prop :=
| paired_nil : Paired 0 true []
| paired_start n closed tr t :
    Paired n closed tr -> Paired (S n) false (tr ++ [SpinStart (S n) t])
| paired_end n tr x t :
    Paired (S n) false tr -> Paired (S n) true (tr ++ [SpinEnd (S n) x t]).

(** The order of the callbacks of one spin. *)
Definition phase_rank (ph : Phase) : nat :=
  match ph with
  | PhStart => 0
  | PhAnimate _ => 1
  | PhTwist _ => 2
  | PhComplete => 3
  end.

(** A host whose frames run ahead of the wall clock: 100 ms of [Date.now()]
    for each millisecond of [performance.now()]. *)
Definition demo_fast_clock (i : nat) : Clock :=
  mkClock (inject_Z (Z.of_nat i)) (100 * Z.of_nat i).

(** * Facts about numbers *)

Lemma Qfloor_unique (x : Q) (z : Z) :
  inject_Z z <= x -> x < inject_Z (z + 1) -> Qfloor x = z.
Proof.
  intros Hlo Hhi.
  pose proof (Qfloor_le x) as Hf.
  pose proof (Qlt_floor x) as Hc.
  assert (H1 : (Qfloor x < z + 1)%Z).
  { rewrite Zlt_Qlt. eapply Qle_lt_trans; eauto. }
  assert (H2 : (z < Qfloor x + 1)%Z).
  { rewrite Zlt_Qlt. eapply Qle_lt_trans; eauto. }
  lia.
Qed.

Lemma qltb_true (a b : Q) : qltb a b = true <-> a < b.
Proof.
  unfold qltb. rewrite negb_true_iff. split.
  - intros H. apply Qnot_le_lt. intros Hle.
    apply Qle_bool_iff in Hle. congruence.
  - intros H. destruct (Qle_bool b a) eqn:E; [|reflexivity].
    apply Qle_bool_iff in E. exfalso. apply (Qlt_not_le _ _ H E).
Qed.

Lemma qltb_false (a b : Q) : qltb a b = false <-> b <= a.
Proof.
  unfold qltb. rewrite negb_false_iff. apply Qle_bool_iff.
Qed.

Lemma min_whole (a b : Z) : min (whole a) (whole b) = whole (Z.min a b).
Proof.
  unfold min, whole, leb.
  destruct (Qle_bool (inject_Z a) (inject_Z b)) eqn:E.
  - apply Qle_bool_iff in E. rewrite <- Zle_Qle in E.
    rewrite Z.min_l by lia. reflexivity.
  - destruct (Z.le_gt_cases a b) as [H|H].
    + rewrite Zle_Qle in H. apply Qle_bool_iff in H. congruence.
    + rewrite Z.min_r by lia. reflexivity.
Qed.

Lemma max_whole (a b : Z) : max (whole a) (whole b) = whole (Z.max a b).
Proof.
  unfold max, whole, leb.
  destruct (Qle_bool (inject_Z a) (inject_Z b)) eqn:E.
  - apply Qle_bool_iff in E. rewrite <- Zle_Qle in E.
    rewrite Z.max_r by lia. reflexivity.
  - destruct (Z.le_gt_cases a b) as [H|H].
    + rewrite Zle_Qle in H. apply Qle_bool_iff in H. congruence.
    + rewrite Z.max_l by lia. reflexivity.
Qed.

Lemma leb_whole (a b : Z) : leb (whole a) (whole b) = (a <=? b)%Z.
Proof.
  unfold leb, whole.
  destruct (Z.leb_spec a b) as [H|H].
  - apply Qle_bool_iff. rewrite <- Zle_Qle. exact H.
  - destruct (Qle_bool (inject_Z a) (inject_Z b)) eqn:E; [|reflexivity].
    apply Qle_bool_iff in E. rewrite <- Zle_Qle in E. lia.
Qed.

Lemma ltb_whole (a b : Z) : ltb (whole a) (whole b) = (a <? b)%Z.
Proof.
  unfold ltb. change (negb (leb (whole b) (whole a)) = (a <? b)%Z).
  rewrite leb_whole. rewrite Z.ltb_antisym. reflexivity.
Qed.

(** With a positive total, [progress < 1] holds exactly while the elapsed
    time is below the total. *)
Lemma progress_lt_1 (elapsed : Z) (total : Q) :
  0 < total ->
  ltb (progressOf elapsed total) (Fin 1) = qltb (inject_Z elapsed) total.
Proof.
  intros Hpos. unfold progressOf, div, whole.
  destruct (Qeq_bool total 0) eqn:E.
  { apply Qeq_bool_iff in E. rewrite E in Hpos. discriminate. }
  unfold min, leb.
  destruct (Qle_bool (inject_Z elapsed / total) 1) eqn:E1; unfold ltb.
  - apply Qle_bool_iff in E1.
    destruct (qltb (inject_Z elapsed) total) eqn:E2.
    + apply qltb_true in E2. apply negb_true_iff.
      destruct (Qle_bool 1 (inject_Z elapsed / total)) eqn:E3; [|reflexivity].
      apply Qle_bool_iff in E3. exfalso.
      apply (Qmult_le_r _ _ total Hpos) in E3.
      assert (Hd : inject_Z elapsed / total * total == inject_Z elapsed).
      { field. intro Hz. rewrite Hz in Hpos. discriminate. }
      rewrite Hd in E3. lra.
    + apply qltb_false in E2. apply negb_false_iff. apply Qle_bool_iff.
      apply (Qmult_le_r _ _ total Hpos).
      assert (Hd : inject_Z elapsed / total * total == inject_Z elapsed).
      { field. intro Hz. rewrite Hz in Hpos. discriminate. }
      rewrite Hd. lra.
  - assert (Hlt : 1 < inject_Z elapsed / total).
    { apply Qnot_le_lt. intro Hc. apply Qle_bool_iff in Hc. congruence. }
    simpl. symmetry. apply qltb_false.
    apply (Qmult_lt_r _ _ total Hpos) in Hlt.
    assert (Hd : inject_Z elapsed / total * total == inject_Z elapsed).
    { field. intro Hz. rewrite Hz in Hpos. discriminate. }
    rewrite Hd in Hlt. lra.
Qed.

(** * Facts about the reel sequence and the stop position *)

Section ReelFacts.

Context {T : Type}.
Variable p : Props T.

Lemma pickRandom_index_in_range (r : Q) :
  0 <= r -> r < 1 -> itemsPool p <> [] ->
  (0 <= Qfloor (r * inject_Z (zlen (itemsPool p)))
   < zlen (itemsPool p))%Z.
Proof.
  intros H0 H1 Hne.
  assert (Hlen : (0 < zlen (itemsPool p))%Z).
  { unfold zlen. destruct (itemsPool p); [congruence | simpl; lia]. }
  set (n := zlen (itemsPool p)) in *.
  assert (Hn : 0 < inject_Z n) by (rewrite Zlt_Qlt in Hlen; exact Hlen).
  split.
  - rewrite <- (Qfloor_Z 0). apply Qfloor_resp_le.
    apply Qmult_le_0_compat; [exact H0 | apply Qlt_le_weak; exact Hn].
  - rewrite Zlt_Qlt. eapply Qle_lt_trans; [apply Qfloor_le|].
    setoid_replace (inject_Z n) with (1 * inject_Z n) at 2 by ring.
    apply Qmult_lt_r; assumption.
Qed.

Lemma pickRandom_in_pool (r : Q) :
  0 <= r -> r < 1 -> itemsPool p <> [] -> In (pickRandom p r) (itemsPool p).
Proof.
  intros H0 H1 Hne.
  pose proof (pickRandom_index_in_range r H0 H1 Hne) as Hi.
  unfold pickRandom. destruct (itemsPool p) as [|x l] eqn:E; [congruence|].
  apply nth_In. unfold zlen in *. lia.
Qed.

Lemma generate_length (n : nat) (rnd : nat -> Q) (k : nat) :
  length (generate p n rnd k) = n.
Proof.
  revert k. induction n as [|n IH]; intros k; simpl; [reflexivity|].
  rewrite IH. reflexivity.
Qed.

Lemma generateItems_length (count : Z) (rnd : nat -> Q) (k : nat) :
  zlen (generateItems p count rnd k) = Z.max 0 count.
Proof.
  unfold zlen, generateItems. rewrite generate_length. lia.
Qed.

Lemma generate_in_pool (n : nat) (rnd : nat -> Q) (k : nat) :
  valid_rnd rnd -> itemsPool p <> [] ->
  Forall (fun x => In x (itemsPool p)) (generate p n rnd k).
Proof.
  intros Hr Hne. revert k.
  induction n as [|n IH]; intros k; simpl; constructor.
  - destruct (Hr k) as [H0 H1]. apply pickRandom_in_pool; assumption.
  - apply IH.
Qed.

(** *** Storing the forced item *)

Lemma array_store_length (l : list T) (i : Z) (x : T) :
  length (array_store l i x) = length l.
Proof.
  unfold array_store.
  destruct ((0 <=? i)%Z && (i <? zlen l)%Z) eqn:E; [|reflexivity].
  apply andb_true_iff in E. destruct E as [E0 E1].
  apply Z.leb_le in E0. apply Z.ltb_lt in E1. unfold zlen in E1.
  rewrite length_app. cbn [length]. rewrite length_firstn, length_skipn. lia.
Qed.

Lemma array_store_nth (l : list T) (i : Z) (x : T) :
  (0 <= i < zlen l)%Z ->
  nth_error (array_store l i x) (Z.to_nat i) = Some x.
Proof.
  intros Hi. unfold array_store.
  replace ((0 <=? i)%Z && (i <? zlen l)%Z) with true.
  2:{ symmetry. apply andb_true_iff. split; [apply Z.leb_le|apply Z.ltb_lt]; lia. }
  unfold zlen in Hi.
  rewrite nth_error_app2 by (rewrite length_firstn; lia).
  rewrite length_firstn.
  replace (Z.to_nat i - Nat.min (Z.to_nat i) (length l))%nat with 0%nat by lia.
  reflexivity.
Qed.

Lemma array_store_negative (l : list T) (i : Z) (x : T) :
  (i < 0)%Z -> array_store l i x = l.
Proof.
  intros Hi. unfold array_store.
  destruct (Z.leb_spec 0 i); [lia | reflexivity].
Qed.

(** The store of [spin] never falls beyond the end of [base]. *)
Lemma array_store_base_in_range (rnd : nat -> Q) :
  (forcedTargetIndex p < zlen (generateItems p (forcedBaseCount p) rnd 0))%Z
  \/ (forcedTargetIndex p < 0)%Z.
Proof.
  rewrite generateItems_length. unfold forcedBaseCount. lia.
Qed.

Lemma In_array_store (l : list T) (i : Z) (x y : T) :
  In y (array_store l i x) -> y = x \/ In y l.
Proof.
  unfold array_store.
  destruct ((0 <=? i)%Z && (i <? zlen l)%Z); [|auto].
  intros H. apply in_app_or in H. destruct H as [H|[H|H]].
  - right. rewrite <- (firstn_skipn (Z.to_nat i) l). apply in_or_app. auto.
  - left. congruence.
  - right. rewrite <- (firstn_skipn (S (Z.to_nat i)) l). apply in_or_app. auto.
Qed.

(** *** The generated sequence *)

Lemma buildItems_unforced_length (rnd : nat -> Q) :
  forcedResult p = None ->
  zlen (buildItems p rnd) = Z.max 0 (reelItemCount p).
Proof.
  intros Hf. unfold buildItems. rewrite Hf. apply generateItems_length.
Qed.

Lemma buildItems_unforced_in_pool (rnd : nat -> Q) :
  forcedResult p = None -> valid_rnd rnd -> itemsPool p <> [] ->
  Forall (fun x => In x (itemsPool p)) (buildItems p rnd).
Proof.
  intros Hf Hr Hne. unfold buildItems. rewrite Hf.
  apply generate_in_pool; assumption.
Qed.

Lemma buildItems_forced_length (rnd : nat -> Q) (forced : T) :
  forcedResult p = Some forced ->
  zlen (buildItems p rnd)
  = (Z.max 0 (forcedTargetIndex p + 1)
     + Z.max 0 (reelItemCount p - (forcedTargetIndex p + 1)))%Z.
Proof.
  intros Hf. unfold buildItems. rewrite Hf. unfold zlen.
  rewrite length_app, array_store_length.
  pose proof (generateItems_length (forcedBaseCount p) rnd 0) as H1.
  pose proof (generateItems_length (forcedTailCount p) rnd
                (length (generateItems p (forcedBaseCount p) rnd 0))) as H2.
  unfold zlen, forcedTailCount, forcedBaseCount in *. lia.
Qed.

Lemma buildItems_forced_nth (rnd : nat -> Q) (forced : T) :
  forcedResult p = Some forced ->
  (0 <= forcedTargetIndex p)%Z ->
  nth_error (buildItems p rnd) (Z.to_nat (forcedTargetIndex p)) = Some forced.
Proof.
  intros Hf Hi. unfold buildItems. rewrite Hf.
  pose proof (generateItems_length (forcedBaseCount p) rnd 0) as H1.
  unfold forcedBaseCount in *.
  rewrite nth_error_app1.
  - apply array_store_nth. lia.
  - rewrite array_store_length. unfold zlen in H1. lia.
Qed.

(** A store at a negative index leaves the sequence a plain random one. *)
Lemma buildItems_forced_negative (rnd : nat -> Q) (forced : T) :
  forcedResult p = Some forced ->
  (forcedTargetIndex p < 0)%Z ->
  buildItems p rnd = generateItems p (forcedTailCount p) rnd 0.
Proof.
  intros Hf Hi. unfold buildItems. rewrite Hf.
  rewrite array_store_negative by exact Hi.
  unfold generateItems, forcedBaseCount.
  replace (Z.to_nat (forcedTargetIndex p + 1)) with 0%nat by lia.
  reflexivity.
Qed.

(** *** The jitter and the index it resolves to *)

Lemma randomOffset_bound (r : Q) :
  0 <= r -> r < 1 ->
  Qabs (randomOffset p r) <= STOP_OFFSET_RATIO * Qabs (itemTotal p).
Proof.
  intros H0 H1. unfold randomOffset.
  setoid_replace ((r - (1 # 2)) * 2 * itemTotal p * STOP_OFFSET_RATIO)
    with ((STOP_OFFSET_RATIO * (2 * r - 1)) * itemTotal p) by ring.
  rewrite Qabs_Qmult.
  assert (Ha : Qabs (STOP_OFFSET_RATIO * (2 * r - 1)) <= STOP_OFFSET_RATIO).
  { apply Qabs_Qle_condition. unfold STOP_OFFSET_RATIO. split; lra. }
  apply Qmult_le_compat_r; [exact Ha | apply Qabs_nonneg].
Qed.

Lemma randomOffset_below_half (r : Q) :
  0 <= r -> r < 1 -> ~ itemTotal p == 0 ->
  Qabs (randomOffset p r) < (1 # 2) * Qabs (itemTotal p).
Proof.
  intros H0 H1 Hnz.
  eapply Qle_lt_trans; [apply randomOffset_bound; assumption|].
  assert (Hpos : 0 < Qabs (itemTotal p)).
  { destruct (Qlt_le_dec 0 (Qabs (itemTotal p))) as [H|H]; [exact H|].
    exfalso. apply Hnz.
    pose proof (Qabs_nonneg (itemTotal p)) as Hn.
    assert (Hz : Qabs (itemTotal p) == 0) by lra.
    revert Hz. apply Qabs_case; intros; lra. }
  unfold STOP_OFFSET_RATIO. lra.
Qed.

(** Rounding the float index of the jittered stop position gives back the
    target index. *)
Lemma round_jittered (c t : Z) (r : Q) :
  0 <= r -> r < 1 -> ~ itemTotal p == 0 ->
  round (sub (whole c) (div (Fin (targetTranslateOf p c t r)) (Fin (itemTotal p))))
  = whole t.
Proof.
  intros H0 H1 Hnz. unfold div.
  destruct (Qeq_bool (itemTotal p) 0) eqn:E.
  { apply Qeq_bool_iff in E. contradiction. }
  unfold whole at 1. unfold sub, neg, add, round. f_equal.
  apply Qfloor_unique.
  - assert (Hq : inject_Z c + - (targetTranslateOf p c t r / itemTotal p) + (1 # 2)
                 == inject_Z t + (1 # 2) - (49 # 100) * (2 * r - 1)).
    { unfold targetTranslateOf, perfectTargetTranslate, randomOffset,
        STOP_OFFSET_RATIO.
      unfold Z.sub at 1. rewrite inject_Z_plus, inject_Z_opp.
      field. exact Hnz. }
    rewrite Hq. lra.
  - assert (Hq : inject_Z c + - (targetTranslateOf p c t r / itemTotal p) + (1 # 2)
                 == inject_Z t + (1 # 2) - (49 # 100) * (2 * r - 1)).
    { unfold targetTranslateOf, perfectTargetTranslate, randomOffset,
        STOP_OFFSET_RATIO.
      unfold Z.sub at 1. rewrite inject_Z_plus, inject_Z_opp.
      field. exact Hnz. }
    rewrite Hq. rewrite inject_Z_plus.
    change (inject_Z 1) with 1. lra.
Qed.

End ReelFacts.

(** * The index and the item a spin resolves to *)

Section Resolution.

Context {T : Type}.
Variable p : Props T.

Local Abbreviation SpinEnv := (SpinEnv (T:=T)).

Lemma guarded_item_whole (e : SpinEnv) (z : Z) :
  guarded_item e (whole z)
  = if (0 <=? z)%Z && (z <? zlen (updatedItems e))%Z
    then nth_error (updatedItems e) (Z.to_nat z) else None.
Proof.
  unfold guarded_item. rewrite leb_whole, ltb_whole.
  unfold whole. rewrite Qfloor_Z. reflexivity.
Qed.

Lemma guarded_item_In (e : SpinEnv) (i : num) (x : T) :
  guarded_item e i = Some x -> In x (updatedItems e).
Proof.
  unfold guarded_item.
  destruct (leb (whole 0) i && ltb i (whole (zlen (updatedItems e))));
    [|discriminate].
  destruct i; try discriminate. apply nth_error_In.
Qed.

Lemma isForcedP_Some (f : T) : forcedResult p = Some f -> isForcedP p = true.
Proof. intros H. unfold isForcedP. rewrite H. reflexivity. Qed.

Lemma isForcedP_None : forcedResult p = None -> isForcedP p = false.
Proof. intros H. unfold isForcedP. rewrite H. reflexivity. Qed.

(** A forced spin with a non-negative index resolves to that index. *)
Lemma clamped_forced (k : nat) (rnd : nat -> Q) (f : T) :
  forcedResult p = Some f -> (0 <= forcedTargetIndex p)%Z ->
  clampedClosestIndexOf p (spinEnv p k rnd) = whole (forcedTargetIndex p).
Proof.
  intros Hf Hi. unfold clampedClosestIndexOf, spinEnv.
  cbn [isForced updatedItems centerIndex targetTranslate].
  rewrite (isForcedP_Some f Hf).
  rewrite (buildItems_forced_length p rnd f Hf). f_equal. lia.
Qed.

(** A random spin resolves to the fifth index from the end, clamped. *)
Lemma clamped_unforced (k : nat) (rnd : nat -> Q) :
  forcedResult p = None -> valid_rnd rnd -> ~ itemTotal p == 0 ->
  clampedClosestIndexOf p (spinEnv p k rnd)
  = whole (Z.max 0 (Z.min (reelItemCount p - 5) (reelItemCount p - 1))).
Proof.
  intros Hf Hr Hnz. unfold clampedClosestIndexOf, closestIndexOf, spinEnv.
  cbn [isForced updatedItems centerIndex targetTranslate].
  rewrite (isForcedP_None Hf).
  unfold targetIndexOf. rewrite (isForcedP_None Hf).
  destruct (Hr (length (buildItems p rnd))) as [H0 H1].
  rewrite round_jittered by assumption.
  rewrite min_whole, max_whole.
  rewrite (buildItems_unforced_length p rnd Hf). f_equal. lia.
Qed.

(** The resolved index is a whole number, or [NaN] when the footprint of
    an item is zero. *)
Lemma clamped_whole_or_NaN (e : SpinEnv) :
  (exists z, clampedClosestIndexOf p e = whole z)
  \/ clampedClosestIndexOf p e = NaN.
Proof.
  unfold clampedClosestIndexOf.
  destruct (isForced e); [left; eexists; reflexivity|].
  unfold closestIndexOf.
  destruct (sub (whole (centerIndex e))
                (div (Fin (targetTranslate e)) (Fin (itemTotal p)))) as [q| | |];
    simpl round.
  - left. rewrite min_whole, max_whole. eexists; reflexivity.
  - left. exists (Z.max 0 (zlen (updatedItems e) - 1)).
    rewrite <- max_whole. reflexivity.
  - left. exists 0%Z. reflexivity.
  - right. reflexivity.
Qed.

Lemma delivered_item_ok (e : SpinEnv) (k : nat) (x : T) :
  env_ok p e k ->
  guarded_item e (clampedClosestIndexOf p e) = Some x -> delivered_ok p x.
Proof.
  intros [Hne [rnd [Hr ->]]] Hg. unfold delivered_ok.
  destruct (forcedResult p) as [f|] eqn:Hf.
  - intros Hi. rewrite (clamped_forced k rnd f Hf Hi) in Hg.
    rewrite guarded_item_whole in Hg.
    destruct ((0 <=? forcedTargetIndex p)%Z &&
              (forcedTargetIndex p <? zlen (updatedItems (spinEnv p k rnd)))%Z);
      [|discriminate].
    simpl in Hg. rewrite (buildItems_forced_nth p rnd f Hf Hi) in Hg.
    congruence.
  - apply guarded_item_In in Hg. simpl in Hg.
    pose proof (buildItems_unforced_in_pool p rnd Hf Hr Hne) as Hall.
    rewrite Forall_forall in Hall. apply Hall. exact Hg.
Qed.

Lemma resolved_item_exists (e : SpinEnv) (k : nat) :
  valid_config p -> env_ok p e k ->
  exists x, guarded_item e (clampedClosestIndexOf p e) = Some x.
Proof.
  intros (_ & _ & Hv) [Hne [rnd [Hr ->]]].
  destruct (forcedResult p) as [f|] eqn:Hf.
  - exists f. rewrite (clamped_forced k rnd f Hf Hv).
    rewrite guarded_item_whole. simpl.
    rewrite (buildItems_forced_length p rnd f Hf).
    replace ((0 <=? forcedTargetIndex p)%Z &&
             (forcedTargetIndex p <?
              Z.max 0 (forcedTargetIndex p + 1) +
              Z.max 0 (reelItemCount p - (forcedTargetIndex p + 1)))%Z) with true.
    + apply (buildItems_forced_nth p rnd f Hf Hv).
    + symmetry. apply andb_true_iff. split; [apply Z.leb_le|apply Z.ltb_lt]; lia.
  - destruct Hv as [Hc Hnz].
    rewrite (clamped_unforced k rnd Hf Hr Hnz).
    rewrite guarded_item_whole. simpl.
    pose proof (buildItems_unforced_length p rnd Hf) as Hlen.
    rewrite Hlen.
    set (z := Z.max 0 (Z.min (reelItemCount p - 5) (reelItemCount p - 1))).
    replace ((0 <=? z)%Z && (z <? Z.max 0 (reelItemCount p))%Z) with true.
    + destruct (nth_error (buildItems p rnd) (Z.to_nat z)) as [x|] eqn:E.
      * exists x. reflexivity.
      * apply nth_error_None in E. unfold zlen in Hlen. lia.
    + symmetry. apply andb_true_iff. split; [apply Z.leb_le|apply Z.ltb_lt]; lia.
Qed.

End Resolution.

(** * Invariants of the reachable states *)

Section Invariant.

Context {T : Type}.
Variable p : Props T.

Local Abbreviation State := (State T).
Local Abbreviation Task := (Task T).
Local Abbreviation SpinEnv := (SpinEnv (T:=T)).

(** *** Counting events *)

Lemma ends_of_app (k : nat) (tr1 tr2 : list (Event T)) :
  ends_of k (tr1 ++ tr2) = (ends_of k tr1 + ends_of k tr2)%nat.
Proof. unfold ends_of. rewrite filter_app, length_app. reflexivity. Qed.

Lemma ends_of_absent (k : nat) (tr : list (Event T)) :
  (forall ev, In ev tr -> event_token ev <> k) -> ends_of k tr = 0%nat.
Proof.
  unfold ends_of. induction tr as [|ev tr IH]; intros H; [reflexivity|].
  simpl. destruct (Nat.eqb_spec (event_token ev) k) as [E|E].
  - exfalso. apply (H ev); [left; reflexivity | exact E].
  - rewrite andb_false_r. apply IH. intros ev' Hin. apply H. right. exact Hin.
Qed.

Lemma ends_of_positive (k : nat) (x : T) (t : Q) (tr : list (Event T)) :
  In (SpinEnd k x t) tr -> (1 <= ends_of k tr)%nat.
Proof.
  unfold ends_of. induction tr as [|ev tr IH]; intros H; [contradiction|].
  destruct H as [-> | H].
  - simpl. rewrite Nat.eqb_refl. simpl. lia.
  - simpl. destruct (is_end ev && Nat.eqb (event_token ev) k); simpl.
    + lia.
    + apply IH. exact H.
Qed.

(** *** Queue primitives *)

Lemma remove_id_single_eq {A : Type} (id : nat) (a : A) :
  remove_id id [(id, a)] = [].
Proof. unfold remove_id. simpl. rewrite Nat.eqb_refl. reflexivity. Qed.

Lemma clear_opt_nil {A : Type} (r : option nat) :
  clear_opt r (@nil (nat * A)) = [].
Proof. destruct r; reflexivity. Qed.

Lemma clear_opt_single {A : Type} (r : option nat) (id : nat) (a : A) :
  clear_opt r [(id, a)] = [] \/ clear_opt r [(id, a)] = [(id, a)].
Proof.
  destruct r as [j|]; [|right; reflexivity].
  unfold clear_opt, remove_id. simpl.
  destruct (Nat.eqb id j); [left|right]; reflexivity.
Qed.

Lemma clear_opt_hit {A : Type} (id : nat) (a : A) :
  clear_opt (Some id) [(id, a)] = [].
Proof. apply remove_id_single_eq. Qed.

(** Clearing the three timeout refs removes a timer that one of them
    names. *)
Lemma clear_three {A : Type} (r1 r2 r3 : option nat) (id : nat) (a : A) :
  r1 = Some id \/ r2 = Some id \/ r3 = Some id ->
  clear_opt r3 (clear_opt r2 (clear_opt r1 [(id, a)])) = [].
Proof.
  intros H.
  destruct (clear_opt_single r1 id a) as [E1|E1]; rewrite E1.
  { rewrite !clear_opt_nil. reflexivity. }
  destruct (clear_opt_single r2 id a) as [E2|E2]; rewrite E2.
  { rewrite clear_opt_nil. reflexivity. }
  destruct H as [-> | [-> | ->]].
  - rewrite clear_opt_hit in E1. discriminate.
  - rewrite clear_opt_hit in E2. discriminate.
  - apply clear_opt_hit.
Qed.

Lemma find_id_single {A : Type} (id j : nat) (a : A) :
  find_id j [(id, a)] = if Nat.eqb id j then Some a else None.
Proof. reflexivity. Qed.

(** *** Preservation *)

Lemma TraceInv_same (s s' : State) :
  trace s' = trace s -> spinTokenRef s' = spinTokenRef s ->
  spinStartedAtRef s' = spinStartedAtRef s ->
  (isSpinningRef s' = true -> isSpinningRef s = true) ->
  TraceInv p s -> TraceInv p s'.
Proof.
  intros Ht Hk Hs Hl [B O U L Tm It].
  constructor; rewrite ?Ht, ?Hk, ?Hs; auto.
Qed.

Lemma env_ok_token (e : SpinEnv) (k : nat) : env_ok p e k -> spinToken e = k.
Proof. intros [_ [rnd [_ ->]]]. reflexivity. Qed.

Lemma Inv_mount (rnd : nat -> Q) : Inv p (mount p rnd).
Proof.
  assert (H : forall s, trace s = [] -> timers s = [] -> frames s = [] ->
                        isSpinningRef s = false -> Inv p s).
  { intros s Ht Hq Hf Hl. split.
    - apply pending_none; assumption.
    - constructor; rewrite ?Ht; simpl; try contradiction; try lia.
      + intros k. unfold ends_of. simpl. lia.
      + congruence. }
  unfold mount. destruct (itemsPool p); apply H; reflexivity.
Qed.

Lemma Inv_spin (now : Q) (rnd : nat -> Q) (s : State) :
  valid_rnd rnd -> Inv p s -> Inv p (spin p now rnd s).
Proof.
  intros Hr [HP HT]. unfold spin.
  destruct (isSpinningRef s) eqn:Hlive; simpl orb; [split; assumption|].
  destruct (length (itemsPool p) =? 0)%nat eqn:Hlen; [split; assumption|].
  apply Nat.eqb_neq in Hlen.
  assert (Hne : itemsPool p <> []).
  { intros E. rewrite E in Hlen. apply Hlen. reflexivity. }
  destruct HP as [Hq Hf _ | id d t _ _ Hl | id t _ _ Hl]; try congruence.
  destruct HT as [B O U L Tm It].
  split.
  - apply pending_timer
      with (id := nextId s) (d := 0%Z)
           (t := StartTask (spinEnv p (S (spinTokenRef s)) rnd)); simpl.
    + rewrite Hq, !clear_opt_nil. reflexivity.
    + rewrite Hf, clear_opt_nil. reflexivity.
    + reflexivity.
    + reflexivity.
    + split; [|exact I]. split; [exact Hne|]. exists rnd. split; [exact Hr|reflexivity].
    + left. reflexivity.
  - assert (Hfresh : forall ev, In ev (trace s) ->
                                event_token ev <> S (spinTokenRef s)).
    { intros ev Hin. specialize (B ev Hin). lia. }
    constructor; simpl.
    + intros ev Hin. apply in_app_or in Hin. destruct Hin as [Hin|[<-|[]]].
      * specialize (B ev Hin). lia.
      * simpl. lia.
    + intros k. rewrite ends_of_app. specialize (O k).
      unfold ends_of at 2. simpl. lia.
    + intros k t t' H1 H2.
      apply in_app_or in H1. apply in_app_or in H2.
      destruct H1 as [H1|[H1|[]]], H2 as [H2|[H2|[]]].
      * eapply U; eauto.
      * inversion H2; subst. exfalso. apply (Hfresh _ H1). reflexivity.
      * inversion H1; subst. exfalso. apply (Hfresh _ H2). reflexivity.
      * congruence.
    + intros _. split.
      * apply in_or_app. right. left. reflexivity.
      * rewrite ends_of_app. rewrite (ends_of_absent _ _ Hfresh).
        reflexivity.
    + intros k x t Hin. apply in_app_or in Hin.
      destruct Hin as [Hin|[Hin|[]]]; [|discriminate].
      destruct (Tm k x t Hin) as [t0 [H0 Hle]].
      exists t0. split; [apply in_or_app; left; exact H0 | exact Hle].
    + intros k x t Hin. apply in_app_or in Hin.
      destruct Hin as [Hin|[Hin|[]]]; [|discriminate].
      eapply It; eauto.
Qed.

Lemma Inv_requestFrame (t : Task) (s : State) :
  Dispatched p s -> task_ok p t (spinTokenRef s) -> Inv p (requestFrame t s).
Proof.
  intros [Hq Hf Hl Hc HT] Hok. split.
  - apply pending_frame with (id := nextId s) (t := t); simpl; auto.
    rewrite Hf. reflexivity.
  - eapply TraceInv_same; [..|exact HT]; auto.
Qed.

Lemma Dispatched_publish (x : num) (s : State) :
  Dispatched p s -> Dispatched p (publish x s).
Proof.
  intros [Hq Hf Hl Hc HT]. constructor; simpl; auto.
  eapply TraceInv_same; [..|exact HT]; auto.
Qed.

Lemma Inv_settle (x : num) (t : Task) (s : State) :
  Dispatched p s -> task_ok p t (spinTokenRef s) -> Inv p (settle x t s).
Proof.
  intros [Hq Hf Hl Hc HT] Hok. split.
  - apply pending_timer with (id := nextId s) (d := 50%Z) (t := t); simpl; auto.
    rewrite Hq. reflexivity.
  - eapply TraceInv_same; [..|exact HT]; auto.
Qed.

Lemma Inv_completeOnce (e : SpinEnv) (c : Clock) (s : State) :
  Dispatched p s -> env_ok p e (spinTokenRef s) ->
  Inv p (completeOnce p e (clampedClosestIndexOf p e) c s).
Proof.
  intros [Hq Hf Hl Hc HT] Hok.
  pose proof (env_ok_token _ _ Hok) as Hk.
  unfold completeOnce. rewrite Hk, Nat.eqb_refl, Hc. simpl negb. simpl token_eqb.
  cbv iota.
  destruct (qltb (perf c - spinStartedAtRef s) (minMs p)) eqn:Hel.
  - split.
    + apply pending_timer
        with (id := nextId s)
             (d := Z.max 0 (Qceiling (minMs p - (perf c - spinStartedAtRef s))))
             (t := CompleteOnce e (clampedClosestIndexOf p e)); simpl; auto.
      * rewrite Hq. reflexivity.
      * split; [exact Hok | reflexivity].
    + eapply TraceInv_same; [..|exact HT]; auto.
  - apply qltb_false in Hel. split.
    + apply pending_none; simpl; auto.
    + destruct (guarded_item e (clampedClosestIndexOf p e)) as [x|] eqn:Hg.
      2:{ eapply TraceInv_same; [..|exact HT]; simpl; auto; discriminate. }
      destruct HT as [B O U L Tm It]. destruct (L Hl) as [Hst He0].
      constructor; simpl; try discriminate.
      * intros ev Hin. apply in_app_or in Hin. destruct Hin as [Hin|[<-|[]]].
        -- apply B. exact Hin.
        -- simpl. specialize (B _ Hst). simpl in B. lia.
      * intros k. rewrite ends_of_app. unfold ends_of at 2. simpl.
        destruct (Nat.eqb_spec (spinTokenRef s) k) as [<- | Hne]; simpl.
        -- rewrite He0. lia.
        -- specialize (O k). lia.
      * intros k t t' H1 H2.
        apply in_app_or in H1. apply in_app_or in H2.
        destruct H1 as [H1|[H1|[]]], H2 as [H2|[H2|[]]]; try discriminate.
        eapply U; eauto.
      * intros k y t Hin. apply in_app_or in Hin.
        destruct Hin as [Hin|[Hin|[]]].
        -- destruct (Tm k y t Hin) as [t0 [H0 Hle]].
           exists t0. split; [apply in_or_app; left; exact H0 | exact Hle].
        -- inversion Hin; subst.
           exists (spinStartedAtRef s). split.
           ++ apply in_or_app. left. exact Hst.
           ++ lra.
      * intros k y t Hin. apply in_app_or in Hin.
        destruct Hin as [Hin|[Hin|[]]].
        -- eapply It; eauto.
        -- inversion Hin; subst. eapply delivered_item_ok; eauto.
Qed.

Lemma Inv_run_task (t : Task) (c : Clock) (s : State) :
  Dispatched p s -> task_ok p t (spinTokenRef s) -> Inv p (run_task p t c s).
Proof.
  intros HD [Henv Hshape].
  pose proof (env_ok_token _ _ Henv) as Hk.
  destruct t as [e | e st | e ts i off | e i]; simpl in *.
  - apply Inv_requestFrame; [exact HD | split; [exact Henv | exact I]].
  - unfold animate. rewrite Hk, Nat.eqb_refl. simpl negb. cbv iota.
    pose proof (Dispatched_publish
                  (currentTranslateValue p e (date c - st)) s HD) as HD1.
    destruct (ltb (progressOf (date c - st) (duration p)) (Fin 1)).
    + apply Inv_requestFrame; [exact HD1 | split; [exact Henv | exact I]].
    + apply Inv_requestFrame; [exact HD1 |].
      split; [exact Henv | split; reflexivity].
  - destruct Hshape as [Hi Hoff].
    unfold animateTwistBack. rewrite Hk, Nat.eqb_refl. simpl negb. cbv iota.
    pose proof (Dispatched_publish
                  (twistBackCurrentPosition p e off (date c - ts)) s HD) as HD1.
    destruct (ltb (progressOf (date c - ts) (twistDuration p)) (Fin 1)).
    + apply Inv_requestFrame; [exact HD1 |].
      split; [exact Henv | split; assumption].
    + apply Inv_settle; [exact HD1 | split; [exact Henv | exact Hi]].
  - subst i. apply Inv_completeOnce; assumption.
Qed.

Lemma Inv_fire_timer (id : nat) (c : Clock) (s : State) :
  Inv p s -> Inv p (fire_timer p id c s).
Proof.
  intros [HP HT]. unfold fire_timer.
  destruct HP as [Hq Hf Hl | id0 d t Hq Hf Hl Hc Hok Href | id0 t Hf Hq Hl Hc Hok Href].
  - rewrite Hq. simpl. split; [apply pending_none; assumption | exact HT].
  - rewrite Hq, find_id_single.
    destruct (Nat.eqb_spec id0 id) as [-> | Hne].
    + rewrite remove_id_single_eq. apply Inv_run_task; [|exact Hok].
      constructor; simpl; auto.
      eapply TraceInv_same; [..|exact HT]; auto.
    + split; [eapply pending_timer; eauto | exact HT].
  - rewrite Hq. simpl. split; [eapply pending_frame; eauto | exact HT].
Qed.

Lemma Inv_fire_frame (id : nat) (c : Clock) (s : State) :
  Inv p s -> Inv p (fire_frame p id c s).
Proof.
  intros [HP HT]. unfold fire_frame.
  destruct HP as [Hq Hf Hl | id0 d t Hq Hf Hl Hc Hok Href | id0 t Hf Hq Hl Hc Hok Href].
  - rewrite Hf. simpl. split; [apply pending_none; assumption | exact HT].
  - rewrite Hf. simpl. split; [eapply pending_timer; eauto | exact HT].
  - rewrite Hf, find_id_single.
    destruct (Nat.eqb_spec id0 id) as [-> | Hne].
    + rewrite remove_id_single_eq. apply Inv_run_task; [|exact Hok].
      constructor; simpl; auto.
      eapply TraceInv_same; [..|exact HT]; auto.
    + split; [eapply pending_frame; eauto | exact HT].
Qed.

(** After the cleanup both host queues are empty. *)
Lemma unmount_clears (s : State) :
  Inv p s -> timers (unmount s) = [] /\ frames (unmount s) = [].
Proof.
  intros [HP _]. unfold unmount. simpl.
  destruct HP as [Hq Hf Hl | id0 d t Hq Hf Hl Hc Hok Href | id0 t Hf Hq Hl Hc Hok Href];
    rewrite Hq, Hf.
  - rewrite !clear_opt_nil. split; reflexivity.
  - rewrite clear_opt_nil. split; [|reflexivity].
    apply clear_three. exact Href.
  - rewrite !clear_opt_nil, Href. split; [reflexivity|]. apply clear_opt_hit.
Qed.

Lemma Inv_unmount (s : State) : Inv p s -> Inv p (unmount s).
Proof.
  intros HI. destruct (unmount_clears s HI) as [Hq Hf].
  destruct HI as [_ HT]. split.
  - apply pending_none; auto.
  - eapply TraceInv_same; [..|exact HT]; simpl; auto; discriminate.
Qed.

Lemma Inv_step (a : Action) (s : State) :
  valid_action a -> Inv p s -> Inv p (step p a s).
Proof.
  intros Hv HI. destruct a as [now rnd | id c | id c |]; simpl in *.
  - apply Inv_spin; assumption.
  - apply Inv_fire_timer; assumption.
  - apply Inv_fire_frame; assumption.
  - apply Inv_unmount; assumption.
Qed.

Lemma Reachable_Inv (s : State) : Reachable p s -> Inv p s.
Proof.
  induction 1 as [rnd Hr | a s Hs IH Hv].
  - apply Inv_mount.
  - apply Inv_step; assumption.
Qed.

End Invariant.

(** * A spin runs to completion *)

Section Liveness.

Context {T : Type}.
Variable p : Props T.
Variable clock : nat -> Clock.

Local Abbreviation State := (State T).
Local Abbreviation Task := (Task T).
Local Abbreviation SpinEnv := (SpinEnv (T:=T)).

Ltac live_fields :=
  constructor; simpl; first [assumption | reflexivity].

Lemma host_step_timer (c : Clock) (s : State) (id : nat) (d : Z) (t : Task) :
  timers s = [(id, (d, t))] ->
  host_step p c s = run_task p t c (set_timers [] s).
Proof.
  intros Hq. unfold host_step, fire_timer. rewrite Hq.
  rewrite find_id_single, Nat.eqb_refl, remove_id_single_eq. reflexivity.
Qed.

Lemma host_step_frame (c : Clock) (s : State) (id : nat) (t : Task) :
  timers s = [] -> frames s = [(id, t)] ->
  host_step p c s = run_task p t c (set_frames [] s).
Proof.
  intros Hq Hf. unfold host_step, fire_frame. rewrite Hq, Hf.
  rewrite find_id_single, Nat.eqb_refl, remove_id_single_eq. reflexivity.
Qed.

Lemma host_step_idle (c : Clock) (s : State) :
  timers s = [] -> frames s = [] -> host_step p c s = s.
Proof. intros Hq Hf. unfold host_step. rewrite Hq, Hf. reflexivity. Qed.

Section Transitions.

Variables (e : SpinEnv) (tr : list (Event T)) (t0 : Q).

Lemma step_start (c : Clock) (s : State) :
  in_phase p e tr t0 PhStart s ->
  in_phase p e tr t0 (PhAnimate (date c)) (host_step p c s).
Proof.
  intros [[Hk Hc Hs Ht Hl] [Hf [id [d Hq]]]].
  rewrite (host_step_timer c s id d _ Hq). unfold in_phase. simpl.
  split; [live_fields|].
  split; [reflexivity|]. rewrite Hf. eexists. reflexivity.
Qed.

Lemma step_animate (c : Clock) (s : State) (st : Z) :
  0 < duration p ->
  in_phase p e tr t0 (PhAnimate st) s ->
  in_phase p e tr t0
           (if qltb (inject_Z (date c - st)) (duration p)
            then PhAnimate st else PhTwist (date c))
           (host_step p c s).
Proof.
  intros Hd [[Hk Hc Hs Ht Hl] [Hq [id Hf]]].
  rewrite (host_step_frame c s id _ Hq Hf). simpl. unfold animate.
  cbn [spinTokenRef set_frames]. rewrite Hk, Nat.eqb_refl.
  simpl negb. cbv iota.
  rewrite (progress_lt_1 _ _ Hd).
  destruct (qltb (inject_Z (date c - st)) (duration p)).
  - split; [live_fields|].
    split; [simpl; assumption|]. simpl. eexists. reflexivity.
  - split; [live_fields|].
    split; [simpl; assumption|]. simpl. eexists. reflexivity.
Qed.

Lemma step_twist (c : Clock) (s : State) (ts : Z) :
  0 < twistDuration p ->
  in_phase p e tr t0 (PhTwist ts) s ->
  in_phase p e tr t0
           (if qltb (inject_Z (date c - ts)) (twistDuration p)
            then PhTwist ts else PhComplete)
           (host_step p c s).
Proof.
  intros Hd [[Hk Hc Hs Ht Hl] [Hq [id Hf]]].
  rewrite (host_step_frame c s id _ Hq Hf). simpl. unfold animateTwistBack.
  cbn [spinTokenRef set_frames]. rewrite Hk, Nat.eqb_refl.
  simpl negb. cbv iota.
  rewrite (progress_lt_1 _ _ Hd).
  destruct (qltb (inject_Z (date c - ts)) (twistDuration p)).
  - split; [live_fields|].
    split; [simpl; assumption|]. simpl. eexists. reflexivity.
  - split; [live_fields|].
    split; [reflexivity|]. simpl. rewrite Hq. do 2 eexists. reflexivity.
Qed.

(** Before the minimum duration has passed [completeOnce] re-arms itself
    and reports nothing. *)
Lemma step_complete_early (c : Clock) (s : State) :
  in_phase p e tr t0 PhComplete s ->
  perf c - t0 < minMs p ->
  in_phase p e tr t0 PhComplete (host_step p c s).
Proof.
  intros [[Hk Hc Hs Ht Hl] [Hf [id [d Hq]]]] Hearly.
  rewrite (host_step_timer c s id d _ Hq). simpl. unfold completeOnce.
  cbn [spinTokenRef completedTokenRef spinStartedAtRef set_timers].
  rewrite Hk, Nat.eqb_refl, Hc, Hs. simpl negb. simpl token_eqb. cbv iota.
  replace (qltb (perf c - t0) (minMs p)) with true
    by (symmetry; apply qltb_true; exact Hearly).
  split; [live_fields|].
  split; [simpl; assumption|]. simpl. do 2 eexists. reflexivity.
Qed.

Lemma step_complete_due (c : Clock) (s : State) :
  in_phase p e tr t0 PhComplete s ->
  minMs p <= perf c - t0 ->
  finished p e tr (perf c) (host_step p c s).
Proof.
  intros [[Hk Hc Hs Ht Hl] [Hf [id [d Hq]]]] Hdue.
  rewrite (host_step_timer c s id d _ Hq). simpl. unfold completeOnce.
  cbn [spinTokenRef completedTokenRef spinStartedAtRef set_timers].
  rewrite Hk, Nat.eqb_refl, Hc, Hs. simpl negb. simpl token_eqb. cbv iota.
  replace (qltb (perf c - t0) (minMs p)) with false
    by (symmetry; apply qltb_false; exact Hdue).
  unfold finished, resolved. simpl. rewrite Ht. auto.
Qed.

End Transitions.

(** *** Waiting *)

Lemma host_run_add (i a b : nat) (s : State) :
  host_run p clock i (a + b) s = host_run p clock (i + a) b (host_run p clock i a s).
Proof.
  revert i s. induction a as [|a IH]; intros i s; simpl.
  - rewrite Nat.add_0_r. reflexivity.
  - rewrite IH. f_equal. lia.
Qed.

Lemma host_run_S (i n : nat) (s : State) :
  host_run p clock i (S n) s
  = host_step p (clock (i + n)%nat) (host_run p clock i n s).
Proof.
  replace (S n) with (n + 1)%nat by lia. rewrite host_run_add. reflexivity.
Qed.

(** A phase that is kept while [cond] is false lasts until the first step
    at which [cond] holds. *)
Lemma wait_until (P : State -> Prop) (cond : nat -> bool) :
  (forall i s, P s -> cond i = false -> P (host_step p (clock i) s)) ->
  forall d n s, P s -> cond (n + d)%nat = true ->
  exists j, (j <= d)%nat /\ cond (n + j)%nat = true /\ P (host_run p clock n j s).
Proof.
  intros Hkeep. induction d as [|d IH]; intros n s HP Hc.
  - exists 0%nat. simpl. auto.
  - destruct (cond n) eqn:E.
    + exists 0%nat. rewrite Nat.add_0_r. simpl. repeat split; [lia | exact E | exact HP].
    + destruct (IH (S n) (host_step p (clock n) s)) as [j [Hj [Hcj HPj]]].
      * apply Hkeep; assumption.
      * replace (S n + d)%nat with (n + S d)%nat by lia. exact Hc.
      * exists (S j). simpl. repeat split; [lia | | exact HPj].
        replace (n + S j)%nat with (S n + j)%nat by lia. exact Hcj.
Qed.

Lemma finished_stable (e : SpinEnv) (tr : list (Event T)) (t1 : Q)
      (i n : nat) (s : State) :
  finished p e tr t1 s -> host_run p clock i n s = s.
Proof.
  intros (Hq & Hf & _). revert i. induction n as [|n IH]; intros i; simpl.
  - reflexivity.
  - rewrite (host_step_idle _ _ Hq Hf). apply IH.
Qed.

Section Run.

Variables (e : SpinEnv) (tr : list (Event T)) (t0 : Q).
Hypothesis Hadv : clocks_advance clock.
Hypothesis Hdur : 0 < duration p.
Hypothesis Htw : 0 < twistDuration p.

(** The frame loop of a phase ends: some later frame sees the elapsed
    [Date.now()] time reach the phase's total. *)
Lemma date_reaches (st : Z) (total : Q) (n : nat) :
  exists d, qltb (inject_Z (date (clock (n + d)) - st)) total = false.
Proof.
  destruct Hadv as [Hdate _].
  destruct (Hdate (st + Qceiling total)%Z n) as [m [Hm HB]].
  exists (m - n)%nat. replace (n + (m - n))%nat with m by lia.
  apply qltb_false.
  apply Qle_trans with (inject_Z (Qceiling total)); [apply Qle_ceiling|].
  rewrite <- Zle_Qle. lia.
Qed.

Lemma perf_reaches (n : nat) :
  exists d, qltb (perf (clock (n + d)) - t0) (minMs p) = false.
Proof.
  destruct Hadv as [_ Hperf].
  destruct (Hperf (t0 + minMs p) n) as [m [Hm HB]].
  exists (m - n)%nat. replace (n + (m - n))%nat with m by lia.
  apply qltb_false. lra.
Qed.

Lemma animate_ends (st : Z) (n : nat) (s : State) :
  in_phase p e tr t0 (PhAnimate st) s ->
  exists j ts, in_phase p e tr t0 (PhTwist ts) (host_run p clock n (S j) s).
Proof.
  intros HP.
  destruct (date_reaches st (duration p) n) as [d Hd].
  destruct (wait_until (in_phase p e tr t0 (PhAnimate st))
              (fun i => negb (qltb (inject_Z (date (clock i) - st)) (duration p))))
    with (d := d) (n := n) (s := s) as [j [_ [Hc HPj]]].
  - intros i s' HP' Hc. apply negb_false_iff in Hc.
    pose proof (step_animate e tr t0 (clock i) s' st Hdur HP') as H.
    rewrite Hc in H. exact H.
  - exact HP.
  - rewrite Hd. reflexivity.
  - apply negb_true_iff in Hc.
    exists j, (date (clock (n + j))). rewrite host_run_S.
    pose proof (step_animate e tr t0 (clock (n + j)) _ st Hdur HPj) as H.
    rewrite Hc in H. exact H.
Qed.

Lemma twist_ends (ts : Z) (n : nat) (s : State) :
  in_phase p e tr t0 (PhTwist ts) s ->
  exists j, in_phase p e tr t0 PhComplete (host_run p clock n (S j) s).
Proof.
  intros HP.
  destruct (date_reaches ts (twistDuration p) n) as [d Hd].
  destruct (wait_until (in_phase p e tr t0 (PhTwist ts))
              (fun i => negb (qltb (inject_Z (date (clock i) - ts)) (twistDuration p))))
    with (d := d) (n := n) (s := s) as [j [_ [Hc HPj]]].
  - intros i s' HP' Hc. apply negb_false_iff in Hc.
    pose proof (step_twist e tr t0 (clock i) s' ts Htw HP') as H.
    rewrite Hc in H. exact H.
  - exact HP.
  - rewrite Hd. reflexivity.
  - apply negb_true_iff in Hc.
    exists j. rewrite host_run_S.
    pose proof (step_twist e tr t0 (clock (n + j)) _ ts Htw HPj) as H.
    rewrite Hc in H. exact H.
Qed.

Lemma complete_ends (n : nat) (s : State) :
  in_phase p e tr t0 PhComplete s ->
  exists j t1, t0 + minMs p <= t1 /\
               finished p e tr t1 (host_run p clock n (S j) s).
Proof.
  intros HP.
  destruct (perf_reaches n) as [d Hd].
  destruct (wait_until (in_phase p e tr t0 PhComplete)
              (fun i => negb (qltb (perf (clock i) - t0) (minMs p))))
    with (d := d) (n := n) (s := s) as [j [_ [Hc HPj]]].
  - intros i s' HP' Hc. apply negb_false_iff in Hc.
    apply step_complete_early; [exact HP' | apply qltb_true; exact Hc].
  - exact HP.
  - rewrite Hd. reflexivity.
  - apply negb_true_iff in Hc. apply qltb_false in Hc.
    exists j, (perf (clock (n + j))). split; [lra|].
    rewrite host_run_S. apply (step_complete_due e tr t0); assumption.
Qed.

(** From the pending start timer to the report. *)
Lemma run_to_end (s : State) :
  in_phase p e tr t0 PhStart s ->
  exists n t1, t0 + minMs p <= t1 /\ finished p e tr t1 (host_run p clock 0 n s).
Proof.
  intros HP.
  pose proof (step_start e tr t0 (clock 0) s HP) as H1.
  destruct (animate_ends _ 1 _ H1) as [j1 [ts H2]].
  destruct (twist_ends _ (1 + S j1) _ H2) as [j2 H3].
  destruct (complete_ends (1 + S j1 + S j2) _ H3) as [j3 [t1 [Ht1 H4]]].
  exists (1 + S j1 + S j2 + S j3)%nat, t1. split; [exact Ht1|].
  rewrite !host_run_add. exact H4.
Qed.

End Run.

End Liveness.

(** * What each step adds to the trace *)

Section Steps.

Context {T : Type}.
Variable p : Props T.

Local Abbreviation State := (State T).
Local Abbreviation Task := (Task T).
Local Abbreviation SpinEnv := (SpinEnv (T:=T)).

Lemma completeOnce_adds (e : SpinEnv) (i : num) (c : Clock) (s : State) :
  spinTokenRef (completeOnce p e i c s) = spinTokenRef s /\
  exists new, trace (completeOnce p e i c s) = trace s ++ new
              /\ ends_for (spinTokenRef s) new.
Proof.
  assert (Hnil : exists new, trace s = trace s ++ new
                             /\ ends_for (spinTokenRef s) new).
  { exists []. rewrite app_nil_r. split; [reflexivity | intros ev []]. }
  unfold completeOnce.
  destruct (Nat.eqb_spec (spinToken e) (spinTokenRef s)) as [Hk|Hk];
    simpl negb; cbv iota; [|auto].
  destruct (token_eqb (completedTokenRef s) (spinToken e)); [auto|].
  destruct (qltb (perf c - spinStartedAtRef s) (minMs p)); simpl; [auto|].
  split; [reflexivity|].
  destruct (guarded_item e i) as [x|]; [|exact Hnil].
  eexists. split; [reflexivity|].
  intros ev [<-|[]]. rewrite Hk. eauto.
Qed.

Lemma run_task_adds (t : Task) (c : Clock) (s : State) :
  spinTokenRef (run_task p t c s) = spinTokenRef s /\
  exists new, trace (run_task p t c s) = trace s ++ new
              /\ ends_for (spinTokenRef s) new.
Proof.
  assert (Hnil : exists new, trace s = trace s ++ new
                             /\ ends_for (spinTokenRef s) new).
  { exists []. rewrite app_nil_r. split; [reflexivity | intros ev []]. }
  destruct t as [e | e st | e ts i off | e i]; simpl.
  - auto.
  - unfold animate. destruct (negb (spinToken e =? spinTokenRef s)%nat); [auto|].
    destruct (ltb (progressOf (date c - st) (duration p)) (Fin 1)); simpl; auto.
  - unfold animateTwistBack.
    destruct (negb (spinToken e =? spinTokenRef s)%nat); [auto|].
    destruct (ltb (progressOf (date c - ts) (twistDuration p)) (Fin 1)); simpl; auto.
  - apply completeOnce_adds.
Qed.

Lemma fire_timer_adds (id : nat) (c : Clock) (s : State) :
  spinTokenRef (fire_timer p id c s) = spinTokenRef s /\
  exists new, trace (fire_timer p id c s) = trace s ++ new
              /\ ends_for (spinTokenRef s) new.
Proof.
  unfold fire_timer. destruct (find_id id (timers s)) as [[d t]|].
  - apply (run_task_adds t c (set_timers (remove_id id (timers s)) s)).
  - split; [reflexivity|]. exists []. rewrite app_nil_r.
    split; [reflexivity | intros ev []].
Qed.

Lemma fire_frame_adds (id : nat) (c : Clock) (s : State) :
  spinTokenRef (fire_frame p id c s) = spinTokenRef s /\
  exists new, trace (fire_frame p id c s) = trace s ++ new
              /\ ends_for (spinTokenRef s) new.
Proof.
  unfold fire_frame. destruct (find_id id (frames s)) as [t|].
  - apply (run_task_adds t c (set_frames (remove_id id (frames s)) s)).
  - split; [reflexivity|]. exists []. rewrite app_nil_r.
    split; [reflexivity | intros ev []].
Qed.

(** [spin] either does nothing at all or fires [onSpinStart]. *)
Lemma spin_cases (now : Q) (rnd : nat -> Q) (s : State) :
  (isSpinningRef s = true \/ itemsPool p = []) /\ spin p now rnd s = s
  \/ (isSpinningRef s = false /\ itemsPool p <> [] /\
      spinTokenRef (spin p now rnd s) = S (spinTokenRef s) /\
      trace (spin p now rnd s)
      = trace s ++ [SpinStart (S (spinTokenRef s)) now]).
Proof.
  unfold spin. destruct (isSpinningRef s); simpl orb; [left; auto|].
  destruct (itemsPool p) as [|x l] eqn:E; simpl; [left; auto|].
  right. repeat split; auto. discriminate.
Qed.

Lemma run_app (a1 a2 : list Action) (s : State) :
  run p (a1 ++ a2) s = run p a2 (run p a1 s).
Proof. unfold run. apply fold_left_app. Qed.

Lemma Reachable_run (acts : list Action) (s : State) :
  Reachable p s -> Forall valid_action acts -> Reachable p (run p acts s).
Proof.
  intros Hs Hv. revert s Hs.
  induction Hv as [|a acts Ha _ IH]; intros s Hs; simpl; [exact Hs|].
  apply IH. apply reach_step; assumption.
Qed.

Lemma Reachable_host_step (c : Clock) (s : State) :
  Reachable p s -> Reachable p (host_step p c s).
Proof.
  intros Hs. unfold host_step.
  destruct (timers s) as [|[id x] q].
  - destruct (frames s) as [|[id t] f]; [exact Hs|].
    apply (reach_step p (FrameFires id c) s Hs I).
  - apply (reach_step p (TimerFires id c) s Hs I).
Qed.

Lemma Reachable_host_run (clock : nat -> Clock) (i n : nat) (s : State) :
  Reachable p s -> Reachable p (host_run p clock i n s).
Proof.
  revert i s. induction n as [|n IH]; intros i s Hs; simpl; [exact Hs|].
  apply IH. apply Reachable_host_step. exact Hs.
Qed.

(** With both queues empty no host action changes the state. *)
Lemma host_actions_idle (acts : list Action) (s : State) :
  timers s = [] -> frames s = [] -> Forall host_action acts ->
  run p acts s = s.
Proof.
  intros Hq Hf Hv. induction Hv as [|a acts Ha _ IH]; simpl; [reflexivity|].
  assert (E : step p a s = s).
  { destruct a as [now rnd | id c | id c |]; simpl in Ha; try contradiction; simpl.
    - unfold fire_timer. rewrite Hq. reflexivity.
    - unfold fire_frame. rewrite Hf. reflexivity. }
  change (run p acts (step p a s) = s). rewrite E. exact IH.
Qed.

(** The state right after a [spin] that passed its guard. *)
Lemma spin_starts (now : Q) (rnd : nat -> Q) (s : State) :
  Inv p s -> isSpinningRef s = false -> itemsPool p <> [] ->
  in_phase p (spinEnv p (S (spinTokenRef s)) rnd)
           (trace s ++ [SpinStart (S (spinTokenRef s)) now]) now
           PhStart (spin p now rnd s).
Proof.
  intros [HP _] Hl Hne.
  destruct HP as [Hq Hf _ | id d t _ _ Hl' | id t _ _ Hl']; try congruence.
  unfold spin. rewrite Hl. simpl orb.
  destruct (itemsPool p) as [|x l] eqn:E; [congruence|]. simpl Nat.eqb. cbv iota.
  split; [constructor; reflexivity|]. simpl.
  rewrite Hq, Hf, !clear_opt_nil. split; [reflexivity|].
  do 2 eexists. reflexivity.
Qed.

End Steps.

(** * Properties of the spin *)

Lemma progressOf_finite (elapsed : Z) (total : Q) :
  ~ total == 0 ->
  exists q, progressOf elapsed total = Fin q
            /\ q == Qmin (inject_Z elapsed / total) 1.
Proof.
  intros Hnz. unfold progressOf, div, whole.
  destruct (Qeq_bool total 0) eqn:E.
  { apply Qeq_bool_iff in E. contradiction. }
  unfold min, leb.
  destruct (Qle_bool (inject_Z elapsed / total) 1) eqn:E1.
  - apply Qle_bool_iff in E1. eexists. split; [reflexivity|].
    symmetry. apply Q.min_l. exact E1.
  - eexists. split; [reflexivity|].
    symmetry. apply Q.min_r.
    apply Qlt_le_weak. apply Qnot_le_lt. intro Hc.
    apply Qle_bool_iff in Hc. congruence.
Qed.

Lemma easeOut_finite (q : Q) : equiv (easeOut (Fin q)) (Fin (ease q)).
Proof. unfold easeOut, ease, pow3, sub, neg, add, mul, equiv. simpl. ring. Qed.

Section Properties.

Context {T : Type}.
Variable p : Props T.

Local Abbreviation State := (State T).
Local Abbreviation Task := (Task T).
Local Abbreviation SpinEnv := (SpinEnv (T:=T)).

Lemma perfectPositionFor_whole (e : SpinEnv) (z : Z) :
  perfectPositionFor p e (whole z) = Fin (perfectPositionQ p e z).
Proof. reflexivity. Qed.

(** C9. Both phases follow the cubic ease-out law: the code's easing of a
    progress [q] is [ease q = 1 - (1-q)^3], and while a spin is live the
    spin phase publishes
    [position_law 0 targetTranslate elapsed duration] and the twist-back
    phase publishes
    [position_law targetTranslate perfectPosition elapsed twistDuration]. *)
Theorem motion_follows_ease_out (e : SpinEnv) (elapsed : Z) (z : Z) :
  ~ duration p == 0 -> ~ twistDuration p == 0 ->
  (forall q, equiv (easeOut (Fin q)) (Fin (ease q)))
  /\ equiv (currentTranslateValue p e elapsed)
        (Fin (position_law 0 (targetTranslate e) (inject_Z elapsed) (duration p)))
  /\ equiv (twistBackCurrentPosition p e (offsetToPerfectOf p e (whole z)) elapsed)
           (Fin (position_law (targetTranslate e) (perfectPositionQ p e z)
                              (inject_Z elapsed) (twistDuration p)))
  /\ (forall st c s,
         spinToken e = spinTokenRef s -> items s <> [] ->
         transform (animate p e st c s)
         = currentTranslateValue p e (date c - st))
  /\ (forall ts i off c s,
         spinToken e = spinTokenRef s -> items s <> [] ->
         transform (animateTwistBack p e ts i off c s)
         = twistBackCurrentPosition p e off (date c - ts)).
Proof.
  intros Hd Ht. split; [exact easeOut_finite|]. repeat split.
  - unfold currentTranslateValue, position_law, startTranslate.
    destruct (progressOf_finite elapsed (duration p) Hd) as [q [-> Hq]].
    unfold easeOut, ease, pow3, sub, neg, add, mul, equiv. simpl.
    rewrite <- Hq. ring.
  - unfold twistBackCurrentPosition, position_law, offsetToPerfectOf.
    rewrite perfectPositionFor_whole.
    destruct (progressOf_finite elapsed (twistDuration p) Ht) as [q [-> Hq]].
    unfold easeOut, ease, pow3, sub, neg, add, mul, equiv. simpl.
    rewrite <- Hq. ring.
  - intros st c s Hk Hi. unfold animate. rewrite Hk, Nat.eqb_refl.
    simpl negb. cbv iota.
    destruct (ltb (progressOf (date c - st) (duration p)) (Fin 1)); simpl;
      destruct (items s); congruence.
  - intros ts i off c s Hk Hi. unfold animateTwistBack. rewrite Hk, Nat.eqb_refl.
    simpl negb. cbv iota.
    destruct (ltb (progressOf (date c - ts) (twistDuration p)) (Fin 1)); simpl;
      destruct (items s); congruence.
Qed.

(** C8. The jitter is at most [STOP_OFFSET_RATIO = 0.49] of an item's
    footprint, and rounding the float index of the jittered stop position
    gives the target index back, for an arbitrary centre and target and
    for the stop position [spin] computes. *)
Theorem jitter_keeps_target_index (c t : Z) (r : Q) (k : nat) (rnd : nat -> Q) :
  0 <= r -> r < 1 -> valid_rnd rnd -> ~ itemTotal p == 0 ->
  STOP_OFFSET_RATIO == 49 / 100
  /\ Qabs (randomOffset p r) <= STOP_OFFSET_RATIO * Qabs (itemTotal p)
  /\ round (sub (whole c)
                (div (Fin (targetTranslateOf p c t r)) (Fin (itemTotal p))))
     = whole t
  /\ closestIndexOf p (spinEnv p k rnd)
     = whole (targetIndexOf p (buildItems p rnd)).
Proof.
  intros H0 H1 Hr Hnz. repeat split.
  - apply randomOffset_bound; assumption.
  - apply round_jittered; assumption.
  - unfold closestIndexOf, spinEnv.
    cbn [centerIndex targetTranslate updatedItems].
    destruct (Hr (length (buildItems p rnd))) as [Ha Hb].
    apply round_jittered; assumption.
Qed.

(** C10. A random spin resolves to [reelItemCount - 5] clamped by
    [Math.max(0, Math.min(., reelItemCount - 1))], whatever the draws: the
    jitter stays strictly below half a footprint, and the item reported is
    the one the sequence holds at that index. *)
Theorem unforced_index_deterministic (k : nat) (rnd : nat -> Q) :
  forcedResult p = None -> valid_rnd rnd -> ~ itemTotal p == 0 ->
  let landing := Z.max 0 (Z.min (reelItemCount p - 5) (reelItemCount p - 1)) in
  clampedClosestIndexOf p (spinEnv p k rnd) = whole landing
  /\ Qabs (randomOffset p (rnd (length (buildItems p rnd))))
     < (1 # 2) * Qabs (itemTotal p)
  /\ guarded_item (spinEnv p k rnd) (clampedClosestIndexOf p (spinEnv p k rnd))
     = nth_error (buildItems p rnd) (Z.to_nat landing).
Proof.
  intros Hf Hr Hnz landing.
  pose proof (clamped_unforced p k rnd Hf Hr Hnz) as Hc.
  fold landing in Hc. repeat split.
  - exact Hc.
  - destruct (Hr (length (buildItems p rnd))) as [Ha Hb].
    apply randomOffset_below_half; assumption.
  - rewrite Hc, guarded_item_whole. simpl updatedItems.
    pose proof (buildItems_unforced_length p rnd Hf) as Hlen.
    destruct ((0 <=? landing)%Z && (landing <? zlen (buildItems p rnd))%Z) eqn:E;
      [reflexivity|].
    symmetry. apply nth_error_None.
    apply andb_false_iff in E. unfold zlen in *.
    destruct E as [E|E]; [apply Z.leb_gt in E | apply Z.ltb_ge in E]; lia.
Qed.

(** C7. With no forced result and a non-empty pool, every entry of the
    generated sequence is drawn from the pool, every item [onSpinEnd] is
    given is a member of the pool, and a reported item sits at a resolved
    index inside the sequence. *)
Theorem unforced_result_in_pool :
  forcedResult p = None -> itemsPool p <> [] ->
  (forall rnd, valid_rnd rnd ->
               Forall (fun x => In x (itemsPool p)) (buildItems p rnd))
  /\ (forall s, Reachable p s ->
                forall k x t, In (SpinEnd k x t) (trace s) -> In x (itemsPool p))
  /\ (forall e x, guarded_item e (clampedClosestIndexOf p e) = Some x ->
                  exists z, clampedClosestIndexOf p e = whole z
                            /\ (0 <= z < zlen (updatedItems e))%Z
                            /\ nth_error (updatedItems e) (Z.to_nat z) = Some x).
Proof.
  intros Hf Hne. repeat split.
  - intros rnd Hr. apply buildItems_unforced_in_pool; assumption.
  - intros s Hs k x t Hin.
    destruct (Reachable_Inv p s Hs) as [_ HT].
    pose proof (end_item p s HT k x t Hin) as Hd.
    unfold delivered_ok in Hd. rewrite Hf in Hd. exact Hd.
  - intros e x Hg.
    destruct (clamped_whole_or_NaN p e) as [[z Hz]|Hz]; rewrite Hz in Hg.
    + exists z. rewrite guarded_item_whole in Hg.
      destruct ((0 <=? z)%Z && (z <? zlen (updatedItems e))%Z) eqn:E;
        [|discriminate].
      apply andb_true_iff in E. destruct E as [E0 E1].
      apply Z.leb_le in E0. apply Z.ltb_lt in E1. auto.
    + discriminate.
Qed.

(** X17. With a forced result at an index [0 <= forcedTargetIndex] and
    [forcedTargetIndex + 1 <= reelItemCount], the generated sequence has
    [reelItemCount] entries and holds the forced item at
    [forcedTargetIndex], the spin resolves to that entry, and every item
    [onSpinEnd] is given is the forced item itself. *)
Theorem forced_result_delivered (forced : T) :
  forcedResult p = Some forced ->
  (0 <= forcedTargetIndex p)%Z ->
  (forcedTargetIndex p + 1 <= reelItemCount p)%Z ->
  (forall rnd,
      zlen (buildItems p rnd) = reelItemCount p
      /\ nth_error (buildItems p rnd) (Z.to_nat (forcedTargetIndex p))
         = Some forced)
  /\ (forall k rnd,
         guarded_item (spinEnv p k rnd)
                      (clampedClosestIndexOf p (spinEnv p k rnd))
         = Some forced)
  /\ (forall s, Reachable p s ->
                forall k x t, In (SpinEnd k x t) (trace s) -> x = forced).
Proof.
  intros Hf Hi Hlen. repeat split.
  - rewrite (buildItems_forced_length p rnd forced Hf). lia.
  - apply buildItems_forced_nth; assumption.
  - intros k rnd. rewrite (clamped_forced p k rnd forced Hf Hi).
    rewrite guarded_item_whole. simpl updatedItems.
    rewrite (buildItems_forced_length p rnd forced Hf).
    replace ((0 <=? forcedTargetIndex p)%Z &&
             (forcedTargetIndex p <?
              Z.max 0 (forcedTargetIndex p + 1) +
              Z.max 0 (reelItemCount p - (forcedTargetIndex p + 1)))%Z) with true.
    + apply buildItems_forced_nth; assumption.
    + symmetry. apply andb_true_iff. split; [apply Z.leb_le|apply Z.ltb_lt]; lia.
  - intros s Hs k x t Hin.
    destruct (Reachable_Inv p s Hs) as [_ HT].
    pose proof (end_item p s HT k x t Hin) as Hd.
    unfold delivered_ok in Hd. rewrite Hf in Hd. auto.
Qed.

(** C5. With an empty pool [spin] returns the state it was given: no
    callback, no timer, no token.  And a [spin] that did not fire
    [onSpinStart] changed nothing at all. *)
Theorem empty_pool_spin_is_noop (now : Q) (rnd : nat -> Q) (s : State) :
  (itemsPool p = [] -> spin p now rnd s = s)
  /\ (spin p now rnd s = s
      \/ trace (spin p now rnd s)
         = trace s ++ [SpinStart (S (spinTokenRef s)) now]).
Proof.
  split.
  - intros He. unfold spin. rewrite He. simpl. rewrite orb_true_r. reflexivity.
  - destruct (spin_cases p now rnd s) as [[_ H]|(_ & _ & _ & H)]; auto.
Qed.

(** C3. While a spin is live (its start was announced, its end was not,
    and its callbacks are pending) a call of [spin] returns the state
    unchanged; when no spin is live nothing is pending; and whatever
    [onSpinEnd] a step fires belongs to the token minted last. *)
Theorem spin_while_live_is_noop (s : State) :
  Reachable p s ->
  (isSpinningRef s = true ->
   (forall now rnd, spin p now rnd s = s)
   /\ In (SpinStart (spinTokenRef s) (spinStartedAtRef s)) (trace s)
   /\ ends_of (spinTokenRef s) (trace s) = 0%nat
   /\ (timers s <> [] \/ frames s <> []))
  /\ (isSpinningRef s = false -> timers s = [] /\ frames s = [])
  /\ (forall a, exists new,
         trace (step p a s) = trace s ++ new
         /\ forall k x t, In (SpinEnd k x t) new ->
                          k = spinTokenRef s /\ k = spinTokenRef (step p a s))
  /\ (forall k, (ends_of k (trace s) <= 1)%nat).
Proof.
  intros Hs. destruct (Reachable_Inv p s Hs) as [HP HT].
  split; [|split; [|split]].
  - intros Hlive. repeat split.
    + intros now rnd. unfold spin. rewrite Hlive. reflexivity.
    + apply (live_start p s HT Hlive).
    + apply (live_start p s HT Hlive).
    + destruct HP as [Hq Hf Hl | id d t Hq _ _ _ _ _ | id t Hf _ _ _ _ _].
      * congruence.
      * left. rewrite Hq. discriminate.
      * right. rewrite Hf. discriminate.
  - intros Hidle.
    destruct HP as [Hq Hf Hl | id d t Hq _ Hl _ _ _ | id t Hf _ Hl _ _ _];
      [auto | congruence | congruence].
  - intros a. destruct a as [now rnd | id c | id c |]; simpl.
    + destruct (spin_cases p now rnd s) as [[_ E]|(_ & _ & _ & E)]; rewrite E.
      * exists []. rewrite app_nil_r. split; [reflexivity | intros k x t []].
      * eexists. split; [reflexivity|].
        intros k x t [Hin|[]]. discriminate.
    + destruct (fire_timer_adds p id c s) as [Hk [new [E Hn]]].
      exists new. split; [exact E|]. intros k x t Hin.
      destruct (Hn _ Hin) as [y [u Hev]]. inversion Hev; subst. auto.
    + destruct (fire_frame_adds p id c s) as [Hk [new [E Hn]]].
      exists new. split; [exact E|]. intros k x t Hin.
      destruct (Hn _ Hin) as [y [u Hev]]. inversion Hev; subst. auto.
    + exists []. rewrite app_nil_r. split; [reflexivity | intros k x t []].
  - apply (ends_once p s HT).
Qed.

(** C4. The cleanup of the unmount effect empties both host queues at
    whatever point of a spin it runs, so no callback of the component
    runs afterwards and the trace stays as it was. *)
Theorem unmount_cancels_everything (s : State) :
  Reachable p s ->
  timers (unmount s) = [] /\ frames (unmount s) = []
  /\ trace (unmount s) = trace s
  /\ forall acts, Forall host_action acts ->
                  run p acts (unmount s) = unmount s
                  /\ trace (run p acts (unmount s)) = trace s.
Proof.
  intros Hs. pose proof (Reachable_Inv p s Hs) as HI.
  destruct (unmount_clears p s HI) as [Hq Hf].
  repeat split; auto.
  - apply host_actions_idle; assumption.
  - rewrite host_actions_idle by assumption. reflexivity.
Qed.

(** C1. A [spin] call that passes its guard, in a valid configuration and
    on a host whose clocks advance: [onSpinEnd] fires for its token, once,
    with the item at the resolved index, at least
    [duration + twistDuration] ms after [onSpinStart], and after it nothing
    is pending.  However the run goes on, no token gets a second
    [onSpinEnd] and none gets one early.  And a [completeOnce] that comes
    early fires nothing: it re-arms itself on the finish timer. *)
Theorem spin_end_once_after_minimum
        (s : State) (now : Q) (rnd : nat -> Q) (clock : nat -> Clock) :
  Reachable p s -> isSpinningRef s = false -> itemsPool p <> [] ->
  valid_rnd rnd -> valid_config p -> clocks_advance clock ->
  let k := S (spinTokenRef s) in
  let s1 := spin p now rnd s in
  (exists n item t1,
      trace (host_run p clock 0 n s1)
      = trace s ++ [SpinStart k now; SpinEnd k item t1]
      /\ guarded_item (spinEnv p k rnd)
                      (clampedClosestIndexOf p (spinEnv p k rnd)) = Some item
      /\ ends_of k (trace (host_run p clock 0 n s1)) = 1%nat
      /\ now + minMs p <= t1
      /\ forall m, (n <= m)%nat ->
                   host_run p clock 0 m s1 = host_run p clock 0 n s1)
  /\ (forall acts, Forall valid_action acts ->
        let s2 := run p acts s1 in
        (forall j, (ends_of j (trace s2) <= 1)%nat)
        /\ forall j x t, In (SpinEnd j x t) (trace s2) ->
                         exists t0, In (SpinStart j t0) (trace s2)
                                    /\ (forall t0', In (SpinStart j t0') (trace s2)
                                                    -> t0' = t0)
                                    /\ t0 + minMs p <= t)
  /\ (forall e i c s',
         spinToken e = spinTokenRef s' ->
         completedTokenRef s' <> Some (spinToken e) ->
         perf c - spinStartedAtRef s' < minMs p ->
         let s'' := completeOnce p e i c s' in
         trace s'' = trace s'
         /\ isSpinningRef s'' = isSpinningRef s'
         /\ finishTimeoutRef s'' = Some (nextId s')
         /\ timers s''
            = timers s'
              ++ [(nextId s',
                   (Z.max 0 (Qceiling (minMs p - (perf c - spinStartedAtRef s'))),
                    CompleteOnce e i))]).
Proof.
  intros Hs Hl Hne Hr Hv Hadv k s1.
  pose proof (Reachable_Inv p s Hs) as HI.
  split; [|split].
  - pose proof (spin_starts p now rnd s HI Hl Hne) as Hstart.
    fold k in Hstart. fold s1 in Hstart.
    destruct Hv as (Hd & Ht & Hcfg).
    destruct (run_to_end p clock _ _ _ Hadv Hd Ht s1 Hstart)
      as [n [t1 [Ht1 Hfin]]].
    destruct (resolved_item_exists p (spinEnv p k rnd) k) as [item Hitem].
    { repeat split; assumption. }
    { split; [exact Hne|]. exists rnd. split; [exact Hr | reflexivity]. }
    pose proof Hfin as (Hq & Hf & Hidle & Htr).
    unfold resolved in Htr. rewrite Hitem in Htr. simpl spinToken in Htr.
    rewrite <- app_assoc in Htr. simpl app in Htr.
    exists n, item, t1. repeat split.
    + exact Htr.
    + exact Hitem.
    + rewrite Htr. rewrite ends_of_app.
      rewrite ends_of_absent.
      * unfold ends_of. simpl. rewrite Nat.eqb_refl. reflexivity.
      * intros ev Hin. destruct HI as [_ HT].
        pose proof (tokens_bounded p s HT ev Hin). unfold k. lia.
    + exact Ht1.
    + intros m Hm. replace m with (n + (m - n))%nat by lia.
      rewrite host_run_add. eapply finished_stable. exact Hfin.
  - intros acts Hacts s2.
    assert (Hs2 : Reachable p s2).
    { apply Reachable_run; [|exact Hacts].
      apply (reach_step p (CallSpin now rnd) s Hs Hr). }
    destruct (Reachable_Inv p s2 Hs2) as [_ HT]. split.
    + apply (ends_once p s2 HT).
    + intros j x t Hin.
      destruct (end_timing p s2 HT j x t Hin) as [t0 [H0 Hle]].
      exists t0. repeat split; auto.
      intros t0' H0'. apply (start_unique p s2 HT j t0' t0 H0' H0).
  - intros e i c s' Hk Hc Hearly s''. unfold s'', completeOnce.
    rewrite Hk, Nat.eqb_refl. simpl negb. cbv iota.
    replace (token_eqb (completedTokenRef s') (spinTokenRef s')) with false.
    2:{ symmetry. unfold token_eqb.
        destruct (completedTokenRef s') as [j|]; [|reflexivity].
        apply Nat.eqb_neq. intros ->. apply Hc. rewrite Hk. reflexivity. }
    replace (qltb (perf c - spinStartedAtRef s') (minMs p)) with true
      by (symmetry; apply qltb_true; exact Hearly).
    simpl. auto.
Qed.

(** X1. The host never holds more than one callback of the component, and
    it holds one exactly while [isSpinningRef] is set. *)
Theorem one_callback_pending (s : State) :
  Reachable p s ->
  (length (timers s) + length (frames s) <= 1)%nat
  /\ (isSpinningRef s = true <->
      (length (timers s) + length (frames s) = 1)%nat).
Proof.
  intros Hs. destruct (Reachable_Inv p s Hs) as [HP _].
  destruct HP as [Hq Hf Hl | id d t Hq Hf Hl _ _ _ | id t Hf Hq Hl _ _ _];
    rewrite Hq, Hf, Hl; simpl; split; try lia; split; intros H;
    try reflexivity; discriminate H.
Qed.

(** X2. Only a [spin] call that passes its guard mints a token, the next
    one; every other step leaves [spinTokenRef] as it is. *)
Theorem token_minted_by_spin_only (a : Action) (s : State) :
  spinTokenRef (step p a s) = spinTokenRef s
  \/ (exists now rnd, a = CallSpin now rnd
                      /\ spinTokenRef (step p a s) = S (spinTokenRef s)).
Proof.
  destruct a as [now rnd | id c | id c |]; simpl.
  - destruct (spin_cases p now rnd s) as [[_ E]|(_ & _ & E & _)].
    + left. rewrite E. reflexivity.
    + right. exists now, rnd. split; [reflexivity | exact E].
  - left. apply fire_timer_adds.
  - left. apply fire_frame_adds.
  - left. reflexivity.
Qed.

(** X3. [generateItems(count)] returns [count] items, none when [count] is
    not positive; with an empty pool each of them is the placeholder. *)
Theorem generateItems_count_and_placeholder
        (count : Z) (rnd : nat -> Q) (k : nat) :
  zlen (generateItems p count rnd k) = Z.max 0 count
  /\ (itemsPool p = [] ->
      Forall (fun x => x = placeholder p) (generateItems p count rnd k)).
Proof.
  split; [apply generateItems_length|].
  intros He. unfold generateItems. generalize (Z.to_nat count) as n.
  intros n. revert k. induction n as [|n IH]; intros k; simpl; constructor.
  - unfold pickRandom. rewrite He. reflexivity.
  - apply IH.
Qed.

End Properties.

(** * Class names *)

Lemma string_app_assoc (a b c : string) :
  ((a ++ b) ++ c)%string = (a ++ (b ++ c))%string.
Proof. induction a as [|x a IH]; simpl; [reflexivity | rewrite IH; reflexivity]. Qed.

Lemma string_app_empty (a b : string) :
  (a ++ b)%string = EmptyString -> a = EmptyString.
Proof. destruct a; [reflexivity | discriminate]. Qed.

Lemma concat_cons (sep x : string) (l : list string) :
  l <> [] -> String.concat sep (x :: l) = (x ++ sep ++ String.concat sep l)%string.
Proof. destruct l; [congruence | reflexivity]. Qed.

Lemma concat_app (sep : string) (la lb : list string) :
  la <> [] -> lb <> [] ->
  String.concat sep (la ++ lb)
  = (String.concat sep la ++ sep ++ String.concat sep lb)%string.
Proof.
  intros Ha Hb. induction la as [|x la IH]; [congruence|].
  destruct la as [|y la].
  - simpl app. rewrite concat_cons by exact Hb. reflexivity.
  - change ((x :: y :: la) ++ lb) with (x :: ((y :: la) ++ lb)).
    rewrite concat_cons by discriminate.
    rewrite IH by discriminate.
    rewrite (concat_cons sep x (y :: la)) by discriminate.
    rewrite !string_app_assoc. reflexivity.
Qed.

Lemma concat_empty (sep : string) (l : list string) :
  Forall (fun s => s <> EmptyString) l ->
  String.concat sep l = EmptyString -> l = [].
Proof.
  intros Hall H. destruct l as [|x l]; [reflexivity|].
  exfalso. inversion Hall as [|? ? Hx _]; subst. apply Hx.
  destruct l as [|y l]; [exact H|].
  rewrite concat_cons in H by discriminate.
  exact (string_app_empty _ _ H).
Qed.

Lemma cn_kept (classes : list ClassArg) :
  cn classes = String.concat " "%string (kept classes).
Proof. reflexivity. Qed.

Lemma kept_nonempty (classes : list ClassArg) :
  Forall (fun s => s <> EmptyString) (kept classes).
Proof.
  unfold kept. induction classes as [|c l IH]; simpl; [constructor|].
  destruct c as [s| | |]; simpl; try exact IH.
  destruct (String.eqb_spec s EmptyString) as [E|E]; simpl; [exact IH|].
  constructor; assumption.
Qed.

Lemma kept_app (a b : list ClassArg) : kept (a ++ b) = kept a ++ kept b.
Proof. unfold kept. rewrite filter_app, map_app. reflexivity. Qed.

Lemma kept_nil_iff (classes : list ClassArg) :
  kept classes = [] <-> Forall (fun c => class_truthy c = false) classes.
Proof.
  unfold kept. induction classes as [|c l IH]; simpl.
  - split; [constructor | reflexivity].
  - destruct (class_truthy c) eqn:E; simpl; split; intros H.
    + discriminate.
    + inversion H; congruence.
    + constructor; [exact E | apply IH; exact H].
    + apply IH. inversion H; assumption.
Qed.

Lemma cn_empty_kept (classes : list ClassArg) :
  cn classes = EmptyString <-> kept classes = [].
Proof.
  split.
  - apply concat_empty, kept_nonempty.
  - intros H. rewrite cn_kept, H. reflexivity.
Qed.

Lemma kept_single (s : string) :
  kept [ClassName s] = if String.eqb s EmptyString then [] else [s].
Proof. unfold kept. simpl. destruct (String.eqb s EmptyString); reflexivity. Qed.

(** X4. [cn] drops what is falsy: its result is empty exactly when no
    argument is a non-empty string, and nesting calls is the same as
    passing all the arguments at once. *)
Theorem cn_flattens (a b : list ClassArg) :
  cn (a ++ b) = cn [ClassName (cn a); ClassName (cn b)]
  /\ cn [ClassName (cn a)] = cn a
  /\ (cn a = EmptyString <-> Forall (fun c => class_truthy c = false) a).
Proof.
  assert (Hone : forall l, cn [ClassName (cn l)] = cn l).
  { intros l. rewrite (cn_kept [ClassName (cn l)]), kept_single.
    destruct (String.eqb_spec (cn l) EmptyString) as [E|E]; simpl; congruence. }
  split; [|split].
  - change [ClassName (cn a); ClassName (cn b)]
      with ([ClassName (cn a)] ++ [ClassName (cn b)]).
    rewrite (cn_kept (a ++ b)),
      (cn_kept ([ClassName (cn a)] ++ [ClassName (cn b)])).
    rewrite !kept_app, !kept_single.
    destruct (String.eqb_spec (cn a) EmptyString) as [Ea|Ea];
      destruct (String.eqb_spec (cn b) EmptyString) as [Eb|Eb].
    + apply cn_empty_kept in Ea, Eb. rewrite Ea, Eb. reflexivity.
    + apply cn_empty_kept in Ea. rewrite Ea. reflexivity.
    + apply cn_empty_kept in Eb. rewrite Eb, app_nil_r. reflexivity.
    + assert (Ha : kept a <> []) by (intros H; apply Ea, cn_empty_kept, H).
      assert (Hb : kept b <> []) by (intros H; apply Eb, cn_empty_kept, H).
      rewrite concat_app by assumption. rewrite <- !cn_kept. reflexivity.
  - apply Hone.
  - rewrite cn_empty_kept. apply kept_nil_iff.
Qed.

(** * Sizing *)

Lemma suggestedSize_bounds (isVertical : bool) (size : Q) :
  (40 <= suggestedSize isVertical size <= axisMax isVertical)%Z.
Proof. unfold suggestedSize, axisMax. destruct isVertical; lia. Qed.

Lemma Qfloor_third_mono (a b : Q) : a <= b -> (Qfloor (a / 3) <= Qfloor (b / 3))%Z.
Proof.
  intros H. apply Qfloor_resp_le. unfold Qdiv.
  apply Qmult_le_compat_r; [exact H | discriminate].
Qed.

Lemma measure_invariant (isVertical : bool) (resizes : list (list Rect)) :
  let m := measureAfter isVertical resizes in
  lastMeasuredRef m = measuredSize m
  /\ (measuredSize m = 0%Z \/ (40 <= measuredSize m <= axisMax isVertical)%Z).
Proof.
  unfold measureAfter.
  assert (H : forall m0,
             lastMeasuredRef m0 = measuredSize m0 /\
             (measuredSize m0 = 0%Z \/ (40 <= measuredSize m0 <= axisMax isVertical)%Z) ->
             let m := fold_left (fun m entries => onResize isVertical entries m)
                                resizes m0 in
             lastMeasuredRef m = measuredSize m /\
             (measuredSize m = 0%Z \/ (40 <= measuredSize m <= axisMax isVertical)%Z)).
  { induction resizes as [|entries rest IH]; intros m0 H0; simpl; [exact H0|].
    apply IH. unfold onResize.
    destruct (suggestedSize isVertical (observedSize isVertical entries)
              =? lastMeasuredRef m0)%Z; [exact H0|].
    simpl. split; [reflexivity|]. right. apply suggestedSize_bounds. }
  apply H. simpl. auto.
Qed.

(** X5. The size the observer suggests lies in [40, 80] for a vertical and
    in [40, 160] for a horizontal reel, is 80 when there is no measurement
    (no entry, or a side of 0), is a third of the side (rounded down) in
    between, and does not shrink when the container grows. *)
Theorem suggested_size_in_range (isVertical : bool) (size size' : Q) :
  (40 <= suggestedSize isVertical size <= axisMax isVertical)%Z
  /\ suggestedSize isVertical (observedSize isVertical []) = 80%Z
  /\ suggestedSize isVertical 0 = 80%Z
  /\ (~ size == 0 ->
      (40 <= Qfloor (size / 3) <= axisMax isVertical)%Z ->
      suggestedSize isVertical size = Qfloor (size / 3))
  /\ (0 < size -> size <= size' ->
      (suggestedSize isVertical size <= suggestedSize isVertical size')%Z).
Proof.
  split; [apply suggestedSize_bounds|].
  split; [destruct isVertical; reflexivity|].
  split; [destruct isVertical; reflexivity|].
  split.
  - intros Hnz Hr. unfold suggestedSize.
    destruct (Qeq_bool size 0) eqn:E.
    { apply Qeq_bool_iff in E. contradiction. }
    lia.
  - intros Hpos Hle. unfold suggestedSize.
    destruct (Qeq_bool size 0) eqn:E.
    { apply Qeq_bool_iff in E. rewrite E in Hpos. discriminate. }
    destruct (Qeq_bool size' 0) eqn:E'.
    { apply Qeq_bool_iff in E'. rewrite E' in Hle. exfalso.
      apply (Qlt_not_le _ _ Hpos Hle). }
    pose proof (Qfloor_third_mono size size' Hle). lia.
Qed.

(** X6. Whatever resizes the observer has seen, [lastMeasuredRef] agrees
    with [measuredSize], a resize that suggests the same size changes
    nothing, and without an [itemSize] prop the item size is between 40 and
    the axis maximum: the maximum before the first measurement, the
    suggested size after it.  With a gap that is not negative the footprint
    of an item is then at least 40, in particular not zero. *)
Theorem measured_item_size {T : Type} (p : Props T)
        (isVertical : bool) (resizes : list (list Rect)) :
  let m := measureAfter isVertical resizes in
  lastMeasuredRef m = measuredSize m
  /\ (forall entries,
         suggestedSize isVertical (observedSize isVertical entries)
         = measuredSize m -> onResize isVertical entries m = m)
  /\ itemSizeOf None isVertical 0 = inject_Z (axisMax isVertical)
  /\ (forall entries,
         itemSizeOf None isVertical
                    (measuredSize (onResize isVertical entries m))
         = inject_Z (suggestedSize isVertical (observedSize isVertical entries)))
  /\ inject_Z 40 <= itemSizeOf None isVertical (measuredSize m)
  /\ itemSizeOf None isVertical (measuredSize m) <= inject_Z (axisMax isVertical)
  /\ (itemSize p = itemSizeOf None isVertical (measuredSize m) ->
      0 <= itemGap p -> inject_Z 40 <= itemTotal p /\ ~ itemTotal p == 0).
Proof.
  intros m. destruct (measure_invariant isVertical resizes) as [Hlast Hrange].
  fold m in Hlast, Hrange.
  assert (Hsize : forall z, (z = 0 \/ 40 <= z <= axisMax isVertical)%Z ->
                   inject_Z 40 <= itemSizeOf None isVertical z
                   /\ itemSizeOf None isVertical z <= inject_Z (axisMax isVertical)).
  { intros z Hz. unfold itemSizeOf, axisMax in *. rewrite <- !Zle_Qle.
    destruct isVertical; destruct (Z.eqb_spec z 0); lia. }
  split; [exact Hlast|].
  split.
  { intros entries He. unfold onResize. rewrite He, Hlast, Z.eqb_refl.
    reflexivity. }
  split; [destruct isVertical; reflexivity|].
  split.
  { intros entries. unfold onResize.
    pose proof (suggestedSize_bounds isVertical (observedSize isVertical entries))
      as Hb.
    set (sg := suggestedSize isVertical (observedSize isVertical entries)) in *.
    destruct (Z.eqb_spec sg (lastMeasuredRef m)) as [E|E].
    - rewrite <- Hlast, <- E. unfold itemSizeOf, axisMax in *. f_equal.
      destruct isVertical; destruct (Z.eqb_spec sg 0); lia.
    - simpl. unfold itemSizeOf, axisMax in *. f_equal.
      destruct isVertical; destruct (Z.eqb_spec sg 0); lia. }
  split; [apply Hsize; exact Hrange|].
  split; [apply Hsize; exact Hrange|].
  intros Hp Hgap.
  destruct (Hsize _ Hrange) as [Hlo _].
  assert (Ht : inject_Z 40 <= itemTotal p).
  { unfold itemTotal. rewrite Hp. change (inject_Z 40) with 40 in *. lra. }
  split; [exact Ht|]. intros Hz. change (inject_Z 40) with 40 in Ht. lra.
Qed.

(** * The centred item *)

Lemma ratio_below_half (d it : Q) :
  ~ it == 0 -> Qabs d < (1 # 2) * Qabs it ->
  - (1 # 2) < d / it /\ d / it < 1 # 2.
Proof.
  intros Hnz Hd.
  assert (Hpos : 0 < Qabs it).
  { destruct (Qlt_le_dec 0 (Qabs it)) as [H|H]; [exact H|].
    exfalso. apply Hnz.
    pose proof (Qabs_nonneg it) as Hn.
    assert (Hz : Qabs it == 0) by lra.
    revert Hz. apply Qabs_case; intros; lra. }
  assert (Hq : d == (d / it) * it) by (field; exact Hnz).
  rewrite Hq in Hd. rewrite Qabs_Qmult in Hd.
  apply Qmult_lt_r in Hd; [|exact Hpos].
  apply Qabs_Qlt_condition in Hd. exact Hd.
Qed.

Lemma equiv_refl (a : num) : equiv a a.
Proof. destruct a; simpl; auto. reflexivity. Qed.


Lemma equiv_sym (a b : num) : equiv a b -> equiv b a.
Proof. destruct a, b; simpl; auto. intros H. symmetry. exact H. Qed.

Lemma round_sub_whole (c : Z) (y : Q) :
  round (sub (whole c) (Fin y)) = whole (Qfloor (inject_Z c + - y + (1 # 2))).
Proof. reflexivity. Qed.

Section CentreFacts.

Context {T : Type}.
Variable p : Props T.

(** The centred index depends on the translate as a number, not on how
    the rational is written. *)
Lemma closestToCenterIndex_equiv (items : list T) (a b : num) :
  equiv a b -> closestToCenterIndex p items a = closestToCenterIndex p items b.
Proof.
  intros H. unfold closestToCenterIndex. destruct items as [|x l]; [reflexivity|].
  destruct a as [qa| | |], b as [qb| | |]; simpl in H; try contradiction;
    try reflexivity.
  unfold div. destruct (Qeq_bool (itemTotal p) 0) eqn:E.
  - assert (Hs : sgn qa = sgn qb).
    { unfold sgn. rewrite H. reflexivity. }
    rewrite Hs. reflexivity.
  - unfold sub, neg, add, round, whole at 2 5.
    assert (Hf : Qfloor (inject_Z (zlen (x :: l) / 2) + - (qa / itemTotal p) + (1 # 2))
                 = Qfloor (inject_Z (zlen (x :: l) / 2) + - (qb / itemTotal p) + (1 # 2))).
    { apply Qfloor_comp. rewrite H. reflexivity. }
    unfold whole at 2 5. rewrite Hf. reflexivity.
Qed.

Lemma closestToCenterIndex_near (items : list T) (i : Z) (delta : Q) :
  ~ itemTotal p == 0 -> (0 <= i < zlen items)%Z ->
  Qabs delta < (1 # 2) * Qabs (itemTotal p) ->
  closestToCenterIndex p items
    (Fin (- getItemPosition p i (zlen items / 2) + delta))
  = whole i.
Proof.
  intros Hnz Hi Hd. unfold closestToCenterIndex.
  destruct items as [|x l]; [unfold zlen in Hi; simpl in Hi; lia|].
  set (c := (zlen (x :: l) / 2)%Z).
  set (n := zlen (x :: l)) in *.
  unfold div. destruct (Qeq_bool (itemTotal p) 0) eqn:E.
  { apply Qeq_bool_iff in E. contradiction. }
  destruct (ratio_below_half delta (itemTotal p) Hnz Hd) as [Hlo Hhi].
  assert (Hr : round (sub (whole c)
                          (Fin ((- getItemPosition p i c + delta) / itemTotal p)))
               = whole i).
  { unfold whole at 1. unfold sub, neg, add, round. f_equal.
    assert (Hq : inject_Z c + - ((- getItemPosition p i c + delta) / itemTotal p)
                 + (1 # 2)
                 == inject_Z i + (1 # 2) - delta / itemTotal p).
    { unfold getItemPosition. unfold Z.sub. rewrite inject_Z_plus, inject_Z_opp.
      field. exact Hnz. }
    apply Qfloor_unique.
    - rewrite Hq. lra.
    - rewrite Hq, inject_Z_plus. change (inject_Z 1) with 1. lra. }
  rewrite Hr. rewrite (min_whole i (n - 1)), max_whole. f_equal. lia.
Qed.

Lemma closestToCenterIndex_in_range (items : list T) (x : Q) :
  ~ itemTotal p == 0 -> items <> [] ->
  exists z, closestToCenterIndex p items (Fin x) = whole z
            /\ (0 <= z < zlen items)%Z.
Proof.
  intros Hnz Hne. unfold closestToCenterIndex.
  destruct items as [|y l]; [congruence|].
  unfold div. destruct (Qeq_bool (itemTotal p) 0) eqn:E.
  { apply Qeq_bool_iff in E. contradiction. }
  rewrite round_sub_whole, min_whole, max_whole.
  eexists. split; [reflexivity|].
  unfold zlen. simpl length. lia.
Qed.

(** X7. The render marks one index as centred.  When the reel is
    translated so that item [i] sits at the centre (the negated
    [getItemPosition] of [i]), or anywhere less than half a footprint from
    there, that index is [i]; for every translate the index is inside the
    reel; neighbours are one footprint apart. *)
Theorem centre_index_round_trip (items : list T) (i : Z) (delta x : Q) :
  ~ itemTotal p == 0 -> (0 <= i < zlen items)%Z ->
  Qabs delta < (1 # 2) * Qabs (itemTotal p) ->
  closestToCenterIndex p items (Fin (- getItemPosition p i (zlen items / 2)))
  = whole i
  /\ closestToCenterIndex p items
       (Fin (- getItemPosition p i (zlen items / 2) + delta))
     = whole i
  /\ (exists z, closestToCenterIndex p items (Fin x) = whole z
                /\ (0 <= z < zlen items)%Z)
  /\ getItemPosition p (i + 1) (zlen items / 2)
     == getItemPosition p i (zlen items / 2) + itemTotal p
  /\ getItemPosition p (zlen items / 2) (zlen items / 2) == 0.
Proof.
  intros Hnz Hi Hd.
  assert (Hne : items <> []).
  { intros E. rewrite E in Hi. unfold zlen in Hi. simpl in Hi. lia. }
  split; [|split; [|split; [|split]]].
  - rewrite (closestToCenterIndex_equiv items _
               (Fin (- getItemPosition p i (zlen items / 2) + 0))).
    + apply closestToCenterIndex_near; try assumption.
      apply Qle_lt_trans with (Qabs delta); [|exact Hd].
      apply Qabs_nonneg.
    + simpl. ring.
  - apply closestToCenterIndex_near; assumption.
  - apply closestToCenterIndex_in_range; assumption.
  - unfold getItemPosition.
    replace (i + 1 - zlen items / 2)%Z with ((i - zlen items / 2) + 1)%Z by lia.
    rewrite inject_Z_plus. change (inject_Z 1) with 1. ring.
  - unfold getItemPosition. rewrite Z.sub_diag. change (inject_Z 0) with 0. ring.
Qed.

End CentreFacts.

(** * More invariants of the reachable states *)

Section MoreInvariants.

Context {T : Type}.
Variable p : Props T.

Local Abbreviation State := (State T).
Local Abbreviation Task := (Task T).
Local Abbreviation SpinEnv := (SpinEnv (T:=T)).

(** *** What a callback leaves alone *)

Lemma completeOnce_keeps (e : SpinEnv) (i : num) (c : Clock) (s : State) :
  items (completeOnce p e i c s) = items s
  /\ translate (completeOnce p e i c s) = translate s
  /\ (isSpinningRef (completeOnce p e i c s) = true -> isSpinningRef s = true)
  /\ (isSpinningRef s = isSpinning s ->
      isSpinningRef (completeOnce p e i c s) = isSpinning (completeOnce p e i c s)).
Proof.
  unfold completeOnce.
  destruct (negb (spinToken e =? spinTokenRef s)%nat); [auto|].
  destruct (token_eqb (completedTokenRef s) (spinToken e)); [auto|].
  destruct (qltb (perf c - spinStartedAtRef s) (minMs p)); simpl; auto.
  repeat split; auto. discriminate.
Qed.

Lemma run_task_keeps (t : Task) (c : Clock) (s : State) :
  items (run_task p t c s) = items s
  /\ (isSpinningRef (run_task p t c s) = true -> isSpinningRef s = true)
  /\ (isSpinningRef s = isSpinning s ->
      isSpinningRef (run_task p t c s) = isSpinning (run_task p t c s)).
Proof.
  destruct t as [e | e st | e ts i off | e i]; simpl.
  - auto.
  - unfold animate. destruct (negb (spinToken e =? spinTokenRef s)%nat); [auto|].
    destruct (ltb (progressOf (date c - st) (duration p)) (Fin 1)); simpl; auto.
  - unfold animateTwistBack.
    destruct (negb (spinToken e =? spinTokenRef s)%nat); [auto|].
    destruct (ltb (progressOf (date c - ts) (twistDuration p)) (Fin 1)); simpl; auto.
  - destruct (completeOnce_keeps e i c s) as (H1 & _ & H3 & H4). auto.
Qed.

Lemma fire_timer_keeps (id : nat) (c : Clock) (s : State) :
  items (fire_timer p id c s) = items s
  /\ (isSpinningRef (fire_timer p id c s) = true -> isSpinningRef s = true)
  /\ (isSpinningRef s = isSpinning s ->
      isSpinningRef (fire_timer p id c s) = isSpinning (fire_timer p id c s)).
Proof.
  unfold fire_timer. destruct (find_id id (timers s)) as [[d t]|]; [|auto].
  apply (run_task_keeps t c (set_timers (remove_id id (timers s)) s)).
Qed.

Lemma fire_frame_keeps (id : nat) (c : Clock) (s : State) :
  items (fire_frame p id c s) = items s
  /\ (isSpinningRef (fire_frame p id c s) = true -> isSpinningRef s = true)
  /\ (isSpinningRef s = isSpinning s ->
      isSpinningRef (fire_frame p id c s) = isSpinning (fire_frame p id c s)).
Proof.
  unfold fire_frame. destruct (find_id id (frames s)) as [t|]; [|auto].
  apply (run_task_keeps t c (set_frames (remove_id id (frames s)) s)).
Qed.



(** *** The items on the reel *)

Lemma buildItems_from_pool (rnd : nat -> Q) :
  valid_rnd rnd -> itemsPool p <> [] ->
  Forall (fun x => In x (itemsPool p) \/ forcedResult p = Some x) (buildItems p rnd).
Proof.
  intros Hr Hne.
  assert (Hgen : forall n k x, In x (generate p n rnd k) -> In x (itemsPool p)).
  { intros n k x Hin. pose proof (generate_in_pool p n rnd k Hr Hne) as Hall.
    rewrite Forall_forall in Hall. apply Hall. exact Hin. }
  unfold buildItems, generateItems.
  destruct (forcedResult p) as [f|] eqn:Hf; apply Forall_forall; intros x Hin.
  - apply in_app_or in Hin. destruct Hin as [Hin|Hin].
    + apply In_array_store in Hin. destruct Hin as [->|Hin]; [right; reflexivity|].
      left. eapply Hgen. exact Hin.
    + left. eapply Hgen. exact Hin.
  - left. eapply Hgen. exact Hin.
Qed.

(** With an empty pool the component never leaves its initial state. *)
Lemma empty_pool_initial (s : State) :
  itemsPool p = [] -> Reachable p s -> s = initial.
Proof.
  intros He. induction 1 as [rnd Hr | a s Hs IH Hv].
  - unfold mount. rewrite He. reflexivity.
  - subst s. destruct a as [now rnd | id c | id c |]; simpl.
    + unfold spin. rewrite He. reflexivity.
    + reflexivity.
    + reflexivity.
    + reflexivity.
Qed.

(** X8. Every item the reel shows is an item of the pool or the forced
    result, in every reachable state; with an empty pool the component
    stays in its initial state: an empty reel, nothing pending, no callback
    fired. *)
Theorem reel_items_from_pool (s : State) :
  Reachable p s ->
  Forall (fun x => In x (itemsPool p) \/ forcedResult p = Some x) (items s)
  /\ (itemsPool p = [] -> s = initial).
Proof.
  intros Hs. split; [|intros He; apply empty_pool_initial; assumption].
  induction Hs as [rnd Hr | a s Hs IH Hv].
  - unfold mount. destruct (itemsPool p) as [|x l] eqn:E; simpl; [constructor|].
    eapply Forall_impl; [|apply generate_in_pool; [exact Hr | congruence]].
    intros y Hy. left. rewrite E in Hy. exact Hy.
  - destruct a as [now rnd | id c | id c |]; simpl in *.
    + destruct (spin_cases p now rnd s) as [[_ E]|(Hl & Hne & _ & _)].
      * rewrite E. exact IH.
      * assert (G : (length (itemsPool p) =? 0)%nat = false).
        { apply Nat.eqb_neq. destruct (itemsPool p); [congruence | discriminate]. }
        unfold spin. rewrite Hl, G. unfold spinEnv. cbn [orb items updatedItems].
        apply buildItems_from_pool; assumption.
    + destruct (fire_timer_keeps id c s) as [Hi _]. rewrite Hi. exact IH.
    + destruct (fire_frame_keeps id c s) as [Hi _]. rewrite Hi. exact IH.
    + exact IH.
Qed.

(** *** The order of the callbacks *)

Lemma completeOnce_end (e : SpinEnv) (i : num) (c : Clock) (s : State) :
  trace (completeOnce p e i c s) = trace s
  \/ (exists x, trace (completeOnce p e i c s)
                = trace s ++ [SpinEnd (spinTokenRef s) x (perf c)]
                /\ isSpinningRef (completeOnce p e i c s) = false).
Proof.
  unfold completeOnce.
  destruct (Nat.eqb_spec (spinToken e) (spinTokenRef s)) as [Hk|Hk];
    simpl negb; cbv iota; [|auto].
  destruct (token_eqb (completedTokenRef s) (spinToken e)); [auto|].
  destruct (qltb (perf c - spinStartedAtRef s) (minMs p)); simpl; [auto|].
  destruct (guarded_item e i) as [x|]; [|auto].
  right. exists x. rewrite Hk. auto.
Qed.

Lemma run_task_end (t : Task) (c : Clock) (s : State) :
  trace (run_task p t c s) = trace s
  \/ (exists x, trace (run_task p t c s)
                = trace s ++ [SpinEnd (spinTokenRef s) x (perf c)]
                /\ isSpinningRef (run_task p t c s) = false).
Proof.
  destruct t as [e | e st | e ts i off | e i]; simpl.
  - auto.
  - unfold animate. destruct (negb (spinToken e =? spinTokenRef s)%nat); [auto|].
    destruct (ltb (progressOf (date c - st) (duration p)) (Fin 1)); simpl; auto.
  - unfold animateTwistBack.
    destruct (negb (spinToken e =? spinTokenRef s)%nat); [auto|].
    destruct (ltb (progressOf (date c - ts) (twistDuration p)) (Fin 1)); simpl; auto.
  - apply completeOnce_end.
Qed.

Lemma Paired_open (n : nat) (tr : list (Event T)) :
  Paired n false tr -> exists m, n = S m.
Proof. intros H. inversion H; subst. eexists; reflexivity. Qed.

Lemma snoc_split {A : Type} (l l1 l2 : list A) (a b : A) :
  l ++ [a] = l1 ++ b :: l2 ->
  (l2 = [] /\ l = l1 /\ a = b)
  \/ (exists l2', l2 = l2' ++ [a] /\ l = l1 ++ b :: l2').
Proof.
  intros H. destruct l2 as [|y l2] using rev_ind.
  - left. apply app_inj_tail in H. destruct H as [-> ->]. auto.
  - right. exists l2. clear IHl2.
    change (l1 ++ b :: l2 ++ [y]) with (l1 ++ (b :: l2) ++ [y]) in H.
    rewrite app_assoc in H. apply app_inj_tail in H. destruct H as [-> ->].
    auto.
Qed.

(** In a paired trace an [onSpinEnd] stands directly after the
    [onSpinStart] of the same token. *)
Lemma Paired_end_follows_start (n : nat) (closed : bool) (tr : list (Event T)) :
  Paired n closed tr ->
  forall l1 k x t l2, tr = l1 ++ SpinEnd k x t :: l2 ->
                      exists l0 t0, l1 = l0 ++ [SpinStart k t0].
Proof.
  induction 1 as [| n closed tr t0 HP IH | n tr y u HP IH];
    intros l1 k x t l2 E.
  - destruct l1; discriminate.
  - apply snoc_split in E. destruct E as [(_ & _ & E)|[l2' [_ E]]].
    + discriminate.
    + eapply IH. exact E.
  - apply snoc_split in E. destruct E as [(_ & E1 & E2)|[l2' [_ E]]].
    + inversion E2; subst. inversion HP; subst. eauto.
    + eapply IH. exact E.
Qed.

(** How a fired callback moves a paired trace on. *)
Lemma Paired_task (t : Task) (c : Clock) (s : State) (closed : bool) :
  isSpinningRef s = true ->
  Paired (spinTokenRef s) closed (trace s) -> closed = false ->
  exists closed',
    Paired (spinTokenRef (run_task p t c s)) closed' (trace (run_task p t c s))
    /\ (isSpinningRef (run_task p t c s) = true -> closed' = false).
Proof.
  intros Hl HP ->.
  destruct (run_task_adds p t c s) as [Hk _]. rewrite Hk.
  destruct (run_task_end t c s) as [E|[x [E Hidle]]]; rewrite E.
  - exists false. auto.
  - destruct (Paired_open _ _ HP) as [m Hm]. rewrite Hm in *.
    exists true. split; [apply paired_end; exact HP|].
    rewrite Hidle. discriminate.
Qed.

(** X9. The callbacks come in order: the trace is [onSpinStart] of spin
    1, possibly its [onSpinEnd], [onSpinStart] of spin 2, and so on; an
    [onSpinEnd] directly follows the [onSpinStart] of its own spin, the
    token counts the starts, and while a spin is live its end is still
    open. *)
Theorem callbacks_alternate (s : State) :
  Reachable p s ->
  (exists closed,
      Paired (spinTokenRef s) closed (trace s)
      /\ (isSpinningRef s = true -> closed = false))
  /\ (forall l1 k x t l2,
         trace s = l1 ++ SpinEnd k x t :: l2 ->
         exists l0 t0, l1 = l0 ++ [SpinStart k t0]).
Proof.
  intros Hs.
  assert (H : exists closed,
             Paired (spinTokenRef s) closed (trace s)
             /\ (isSpinningRef s = true -> closed = false));
    [|split; [exact H|];
      destruct H as [closed [HP _]];
      exact (Paired_end_follows_start _ _ _ HP)].
  induction Hs as [rnd Hr | a s Hs [closed [HP Hc]] Hv].
  - exists true. unfold mount.
    destruct (itemsPool p); simpl; split; try constructor; discriminate.
  - destruct (Reachable_Inv p s Hs) as [HPend _].
    destruct a as [now rnd | id c | id c |]; simpl.
    + destruct (spin_cases p now rnd s) as [[_ E]|(_ & _ & Hk & Htr)].
      * rewrite E. exists closed. auto.
      * rewrite Hk, Htr. exists false. split; [|reflexivity].
        eapply paired_start. exact HP.
    + unfold fire_timer.
      destruct HPend as [Hq Hf Hl | id0 d t Hq Hf Hl _ _ _ | id0 t Hf Hq Hl _ _ _];
        rewrite Hq; simpl; try (exists closed; auto; fail).
      destruct (Nat.eqb id0 id); [|exists closed; auto].
      refine (Paired_task t c (set_timers _ s) closed _ _ _); auto.
    + unfold fire_frame.
      destruct HPend as [Hq Hf Hl | id0 d t Hq Hf Hl _ _ _ | id0 t Hf Hq Hl _ _ _];
        rewrite Hf; simpl; try (exists closed; auto; fail).
      destruct (Nat.eqb id0 id); [|exists closed; auto].
      refine (Paired_task t c (set_frames _ s) closed _ _ _); auto.
    + exists closed. split; [exact HP | discriminate].
Qed.

(** *** The React state [isSpinning] *)

Lemma spin_mirrors (now : Q) (rnd : nat -> Q) (s : State) :
  isSpinningRef s = isSpinning s ->
  isSpinningRef (spin p now rnd s) = isSpinning (spin p now rnd s).
Proof.
  intros H. unfold spin.
  destruct (isSpinningRef s || (length (itemsPool p) =? 0)%nat); [exact H|].
  reflexivity.
Qed.

(** X10. Until the component is unmounted the React state [isSpinning],
    which switches the CSS transition of the reel off, agrees with
    [isSpinningRef]: it is set exactly while a spin is live. *)
Theorem is_spinning_mirrors_ref (rnd : nat -> Q) (acts : list Action) :
  Forall (fun a => a <> Unmount) acts ->
  isSpinning (run p acts (mount p rnd)) = isSpinningRef (run p acts (mount p rnd)).
Proof.
  intros Hacts.
  assert (H0 : isSpinningRef (mount p rnd) = isSpinning (mount p rnd)).
  { unfold mount. destruct (itemsPool p); reflexivity. }
  revert H0. generalize (mount p rnd) as s.
  induction Hacts as [|a acts Ha _ IH]; intros s H0; simpl; [symmetry; exact H0|].
  apply IH. destruct a as [now r | id c | id c |]; simpl.
  - apply spin_mirrors. exact H0.
  - apply fire_timer_keeps. exact H0.
  - apply fire_frame_keeps. exact H0.
  - congruence.
Qed.

End MoreInvariants.

(** * More on the run of a spin *)

Lemma Qceiling_positive (x : Q) : 0 < x -> (1 <= Qceiling x)%Z.
Proof.
  intros H. pose proof (Qle_ceiling x) as Hc.
  assert (Hz : (0 < Qceiling x)%Z).
  { rewrite Zlt_Qlt. eapply Qlt_le_trans; eauto. }
  lia.
Qed.

Section MoreRun.

Context {T : Type}.
Variable p : Props T.

Local Abbreviation State := (State T).
Local Abbreviation Task := (Task T).
Local Abbreviation SpinEnv := (SpinEnv (T:=T)).

(** X11. The callbacks of one spin run in the order start timer, spin
    frames, twist-back frames, completion: a host step keeps the phase or
    moves to the next one, never back and never past one, and no callback
    of the caller fires before the spin is finished. *)
Theorem phases_in_order (e : SpinEnv) (tr : list (Event T)) (t0 : Q)
        (ph : Phase) (c : Clock) (s : State) :
  0 < duration p -> 0 < twistDuration p ->
  in_phase p e tr t0 ph s ->
  (exists ph', in_phase p e tr t0 ph' (host_step p c s)
               /\ (phase_rank ph <= phase_rank ph' <= S (phase_rank ph))%nat
               /\ trace (host_step p c s) = tr)
  \/ (ph = PhComplete /\ finished p e tr (perf c) (host_step p c s)).
Proof.
  intros Hd Ht HP.
  assert (Htr : forall ph' s', in_phase p e tr t0 ph' s' -> trace s' = tr).
  { intros ph' s' [[_ _ _ H _] _]. exact H. }
  destruct ph as [|st|ts|].
  - left. exists (PhAnimate (date c)).
    pose proof (step_start p e tr t0 c s HP) as H.
    split; [exact H | split; [simpl; lia | eapply Htr; exact H]].
  - left. pose proof (step_animate p e tr t0 c s st Hd HP) as H.
    eexists. split; [exact H|]. split; [|eapply Htr; exact H].
    destruct (qltb (inject_Z (date c - st)) (duration p)); simpl; lia.
  - left. pose proof (step_twist p e tr t0 c s ts Ht HP) as H.
    eexists. split; [exact H|]. split; [|eapply Htr; exact H].
    destruct (qltb (inject_Z (date c - ts)) (twistDuration p)); simpl; lia.
  - destruct (Qlt_le_dec (perf c - t0) (minMs p)) as [He|Hdue].
    + left. exists PhComplete.
      pose proof (step_complete_early p e tr t0 c s HP He) as H.
      split; [exact H | split; [simpl; lia | eapply Htr; exact H]].
    + right. split; [reflexivity|].
      apply (step_complete_due p e tr t0); assumption.
Qed.

(** X12. A [completeOnce] that comes early arms the finish timer with the
    time still missing, rounded up to a whole millisecond (at least 1, less
    than one millisecond too long), and fires nothing; when the host runs
    that timer no earlier than its delay, the spin is reported then: one
    deferral is enough. *)
Theorem one_deferral_suffices (e : SpinEnv) (tr : list (Event T)) (t0 : Q)
        (c c' : Clock) (s : State) :
  in_phase p e tr t0 PhComplete s ->
  perf c - t0 < minMs p ->
  let s1 := host_step p c s in
  let d := Z.max 0 (Qceiling (minMs p - (perf c - t0))) in
  (exists id, timers s1 = [(id, (d, CompleteOnce e (resolved p e)))])
  /\ trace s1 = tr
  /\ (1 <= d)%Z
  /\ minMs p - (perf c - t0) <= inject_Z d
  /\ inject_Z d < minMs p - (perf c - t0) + 1
  /\ (perf c + inject_Z d <= perf c' ->
      finished p e tr (perf c') (host_step p c' s1)).
Proof.
  intros HP Hearly s1 d.
  pose proof (step_complete_early p e tr t0 c s HP Hearly) as H1. fold s1 in H1.
  assert (Hx : 0 < minMs p - (perf c - t0)) by lra.
  pose proof (Qceiling_positive _ Hx) as Hc1.
  pose proof (Qle_ceiling (minMs p - (perf c - t0))) as Hc2.
  pose proof (Qceiling_lt (minMs p - (perf c - t0))) as Hc3.
  assert (Hd : d = Qceiling (minMs p - (perf c - t0))) by (unfold d; lia).
  assert (Hlo : minMs p - (perf c - t0) <= inject_Z d) by (rewrite Hd; exact Hc2).
  split; [|split; [|split; [|split; [|split]]]].
  - destruct HP as [[Hk Hcp Hs Ht Hl] [Hf [id [d0 Hq]]]].
    unfold s1. rewrite (host_step_timer p c s id d0 _ Hq). simpl. unfold completeOnce.
    cbn [spinTokenRef completedTokenRef spinStartedAtRef set_timers].
    rewrite Hk, Nat.eqb_refl, Hcp, Hs. simpl negb. simpl token_eqb. cbv iota.
    replace (qltb (perf c - t0) (minMs p)) with true
      by (symmetry; apply qltb_true; exact Hearly).
    simpl. eexists. reflexivity.
  - destruct H1 as [[_ _ _ H _] _]. exact H.
  - lia.
  - exact Hlo.
  - rewrite Hd. unfold Z.sub in Hc3. rewrite inject_Z_plus, inject_Z_opp in Hc3.
    change (inject_Z 1) with 1 in Hc3. lra.
  - intros Hlate. apply (step_complete_due p e tr t0); [exact H1 | lra].
Qed.

End MoreRun.

(** * The motion between its end points *)

Lemma cube (x : Q) : x ^ 3 == x * x * x.
Proof. ring. Qed.

Lemma ease_bounds (q : Q) : 0 <= q -> q <= 1 -> 0 <= ease q /\ ease q <= 1.
Proof.
  intros H0 H1. unfold ease. rewrite cube.
  assert (Ha : 0 <= 1 - q) by lra. assert (Hb : 1 - q <= 1) by lra.
  set (a := 1 - q) in *. split; nra.
Qed.

Lemma ease_mono (q q' : Q) : 0 <= q -> q <= q' -> q' <= 1 -> ease q <= ease q'.
Proof.
  intros H0 H1 H2. unfold ease. rewrite !cube.
  assert (Ha : 0 <= 1 - q') by lra. assert (Hb : 1 - q' <= 1 - q) by lra.
  set (a := 1 - q') in *. set (b := 1 - q) in *.
  assert (H3 : a * a <= b * b) by nra.
  assert (H4 : a * a * a <= b * b * b) by nra. lra.
Qed.

Lemma share_ratio (total : Q) (elapsed : Z) :
  0 < total -> (0 <= elapsed)%Z -> 0 <= inject_Z elapsed / total.
Proof.
  intros Ht He. apply Qle_shift_div_l; [exact Ht|].
  rewrite Zle_Qle in He. change (inject_Z 0) with 0 in He. lra.
Qed.

Lemma easedShare_facts (total : Q) (elapsed elapsed' : Z) :
  0 < total -> (0 <= elapsed <= elapsed')%Z ->
  0 <= easedShare total elapsed
  /\ easedShare total elapsed <= easedShare total elapsed'
  /\ easedShare total elapsed' <= 1
  /\ easedShare total 0 == 0
  /\ (total <= inject_Z elapsed -> easedShare total elapsed == 1).
Proof.
  intros Ht [He He'].
  assert (Hr : 0 <= inject_Z elapsed / total) by (apply share_ratio; assumption).
  assert (Hr' : inject_Z elapsed / total <= inject_Z elapsed' / total).
  { unfold Qdiv. apply Qmult_le_compat_r.
    - rewrite <- Zle_Qle. exact He'.
    - apply Qinv_le_0_compat. lra. }
  assert (Hm : forall x, 0 <= x -> 0 <= Qmin x 1 /\ Qmin x 1 <= 1).
  { intros x Hx. split; [apply Q.min_glb; [exact Hx | discriminate] | apply Q.le_min_r]. }
  destruct (Hm _ Hr) as [Hq0 Hq1].
  assert (Hr0' : 0 <= inject_Z elapsed' / total) by lra.
  destruct (Hm _ Hr0') as [Hq0' Hq1'].
  assert (Hqq : Qmin (inject_Z elapsed / total) 1 <= Qmin (inject_Z elapsed' / total) 1).
  { apply Q.min_le_compat_r. exact Hr'. }
  unfold easedShare. split; [apply ease_bounds; assumption|].
  split; [apply ease_mono; assumption|].
  split; [apply ease_bounds; assumption|].
  split.
  - assert (E : Qmin (inject_Z 0 / total) 1 == 0).
    { rewrite Q.min_l; [unfold Qdiv; change (inject_Z 0) with 0; ring|].
      unfold Qdiv. change (inject_Z 0) with 0. rewrite Qmult_0_l. discriminate. }
    unfold ease. rewrite E. reflexivity.
  - intros Hfull.
    assert (E : Qmin (inject_Z elapsed / total) 1 == 1).
    { apply Q.min_r. apply Qle_shift_div_l; [exact Ht | lra]. }
    unfold ease. rewrite E. reflexivity.
Qed.

Section Motion.

Context {T : Type}.
Variable p : Props T.

Local Abbreviation State := (State T).
Local Abbreviation Task := (Task T).
Local Abbreviation SpinEnv := (SpinEnv (T:=T)).

Lemma currentTranslateValue_share (e : SpinEnv) (elapsed : Z) :
  ~ duration p == 0 ->
  equiv (currentTranslateValue p e elapsed)
        (Fin (easedShare (duration p) elapsed * targetTranslate e)).
Proof.
  intros Hd. unfold currentTranslateValue, startTranslate, easedShare.
  destruct (progressOf_finite elapsed (duration p) Hd) as [q [-> Hq]].
  unfold easeOut, ease, pow3, sub, neg, add, mul, equiv. simpl.
  rewrite <- Hq. ring.
Qed.

Lemma twistBackCurrentPosition_share (e : SpinEnv) (z : Z) (elapsed : Z) :
  ~ twistDuration p == 0 ->
  equiv (twistBackCurrentPosition p e (offsetToPerfectOf p e (whole z)) elapsed)
        (Fin (targetTranslate e
              + easedShare (twistDuration p) elapsed
                * (perfectPositionQ p e z - targetTranslate e))).
Proof.
  intros Hd. unfold twistBackCurrentPosition, offsetToPerfectOf, easedShare.
  rewrite perfectPositionFor_whole.
  destruct (progressOf_finite elapsed (twistDuration p) Hd) as [q [-> Hq]].
  unfold easeOut, ease, pow3, sub, neg, add, mul, equiv. simpl.
  rewrite <- Hq. ring.
Qed.

(** X13. Each phase moves the reel monotonically from its start to its
    target and never past it: the position is the start plus an eased share
    of the way, the share is 0 at the start of the phase, grows with the
    elapsed time, and is 1 from the phase's duration on.  The spin phase
    runs from 0 to [targetTranslate], the twist-back from [targetTranslate]
    to the centred position of the resolved index, so the two phases join
    without a jump. *)
Theorem motion_never_overshoots (e : SpinEnv) (z elapsed elapsed' : Z) :
  0 < duration p -> 0 < twistDuration p -> (0 <= elapsed <= elapsed')%Z ->
  equiv (currentTranslateValue p e elapsed)
        (Fin (easedShare (duration p) elapsed * targetTranslate e))
  /\ equiv (twistBackCurrentPosition p e (offsetToPerfectOf p e (whole z)) elapsed)
           (Fin (targetTranslate e
                 + easedShare (twistDuration p) elapsed
                   * (perfectPositionQ p e z - targetTranslate e)))
  /\ (0 <= easedShare (duration p) elapsed
      /\ easedShare (duration p) elapsed <= easedShare (duration p) elapsed'
      /\ easedShare (duration p) elapsed' <= 1
      /\ easedShare (duration p) 0 == 0
      /\ (duration p <= inject_Z elapsed -> easedShare (duration p) elapsed == 1))
  /\ (0 <= easedShare (twistDuration p) elapsed
      /\ easedShare (twistDuration p) elapsed <= easedShare (twistDuration p) elapsed'
      /\ easedShare (twistDuration p) elapsed' <= 1
      /\ easedShare (twistDuration p) 0 == 0
      /\ (twistDuration p <= inject_Z elapsed ->
          easedShare (twistDuration p) elapsed == 1)).
Proof.
  intros Hd Ht He.
  split; [apply currentTranslateValue_share; intros E; rewrite E in Hd; discriminate|].
  split; [apply twistBackCurrentPosition_share; intros E; rewrite E in Ht; discriminate|].
  split; apply easedShare_facts; assumption.
Qed.

(** *** The twist-back and the jitter *)

Lemma target_in_reel_clamped (k : nat) (rnd : nat -> Q) :
  valid_rnd rnd -> target_in_reel p ->
  clampedClosestIndexOf p (spinEnv p k rnd)
  = whole (targetIndexOf p (buildItems p rnd)).
Proof.
  intros Hr Ht. unfold target_in_reel in Ht. unfold targetIndexOf.
  destruct (forcedResult p) as [f|] eqn:Hf.
  - rewrite (isForcedP_Some p f Hf). apply (clamped_forced p k rnd f Hf Ht).
  - destruct Ht as [Hc Hnz]. rewrite (isForcedP_None p Hf).
    rewrite (clamped_unforced p k rnd Hf Hr Hnz).
    rewrite (buildItems_unforced_length p rnd Hf). f_equal. lia.
Qed.

(** X14. When the target index is an index of the sequence, the spin
    resolves to it and the twist-back undoes exactly the jitter: it moves
    the reel by the negated random offset, at most 0.49 of a footprint, onto
    the position that centres the target. *)
Theorem twist_back_undoes_jitter (k : nat) (rnd : nat -> Q) :
  valid_rnd rnd -> target_in_reel p ->
  let e := spinEnv p k rnd in
  let target := targetIndexOf p (buildItems p rnd) in
  let jitter := randomOffset p (rnd (length (buildItems p rnd))) in
  clampedClosestIndexOf p e = whole target
  /\ equiv (offsetToPerfectOf p e (clampedClosestIndexOf p e)) (Fin (- jitter))
  /\ equiv (perfectPositionFor p e (clampedClosestIndexOf p e))
           (Fin (targetTranslate e - jitter))
  /\ Qabs jitter <= STOP_OFFSET_RATIO * Qabs (itemTotal p).
Proof.
  intros Hr Ht e target jitter.
  pose proof (target_in_reel_clamped k rnd Hr Ht) as Hc.
  fold e in Hc. fold target in Hc.
  destruct (Hr (length (buildItems p rnd))) as [H0 H1].
  split; [exact Hc|]. rewrite Hc.
  split; [|split].
  - unfold offsetToPerfectOf. rewrite perfectPositionFor_whole.
    unfold perfectPositionQ, e, spinEnv, jitter, target.
    cbn [centerIndex targetTranslate updatedItems sub neg add equiv].
    unfold targetTranslateOf, perfectTargetTranslate.
    unfold Z.sub. rewrite inject_Z_plus, inject_Z_opp. ring.
  - rewrite perfectPositionFor_whole.
    unfold perfectPositionQ, e, spinEnv, jitter, target.
    cbn [centerIndex targetTranslate updatedItems equiv].
    unfold targetTranslateOf, perfectTargetTranslate.
    unfold Z.sub. rewrite inject_Z_plus, inject_Z_opp. ring.
  - apply randomOffset_bound; assumption.
Qed.

End Motion.

(** * Where the reel comes to rest *)

Section Settling.

Context {T : Type}.
Variable p : Props T.
Variable clock : nat -> Clock.

Local Abbreviation State := (State T).
Local Abbreviation Task := (Task T).
Local Abbreviation SpinEnv := (SpinEnv (T:=T)).

Variables (e : SpinEnv) (tr : list (Event T)) (t0 : Q).
Hypothesis Hadv : clocks_advance clock.
Hypothesis Hdur : 0 < duration p.
Hypothesis Htw : 0 < twistDuration p.







End Settling.

Section Settled.

Context {T : Type}.
Variable p : Props T.

Local Abbreviation State := (State T).




End Settled.

(** * Image preloading *)

Section PreloadFacts.

Context {T : Type}.
Variables getItemImage itemImage : T -> string.

Local Abbreviation preloadUrl := (preloadUrl getItemImage itemImage).
Local Abbreviation preloadImages := (preloadImages getItemImage itemImage).
Local Abbreviation preloadAll := (preloadAll getItemImage itemImage).
Local Abbreviation url_of := (url_of getItemImage itemImage).

Lemma seen_has_In (seen : list string) (url : string) :
  seen_has seen url = true <-> In url seen.
Proof.
  unfold seen_has. rewrite existsb_exists. split.
  - intros [x [Hin Heq]]. apply String.eqb_eq in Heq. subst. exact Hin.
  - intros Hin. exists url. split; [exact Hin | apply String.eqb_refl].
Qed.

Lemma url_of_cons (item : T) (rest : list T) (url : string) :
  url_of (item :: rest) url
  <-> (url <> EmptyString /\ preloadUrl item = url) \/ url_of rest url.
Proof.
  unfold url_of. split.
  - intros [Hne [x [[<-|Hin] Hx]]]; [left; auto | right; eauto].
  - intros [[Hne Hx] | [Hne [x [Hin Hx]]]]; (split; [exact Hne|]).
    + exists item. split; [left; reflexivity | exact Hx].
    + exists x. split; [right; exact Hin | exact Hx].
Qed.

Lemma preloadImages_spec (batch : list T) (seen : list string) :
  NoDup seen -> ~ In EmptyString seen ->
  exists new,
    preloadImages batch seen seen = (seen ++ new, seen ++ new)
    /\ NoDup (seen ++ new)
    /\ ~ In EmptyString (seen ++ new)
    /\ (forall url, In url new <-> url_of batch url /\ ~ In url seen).
Proof.
  revert seen. induction batch as [|item rest IH]; intros seen Hnd Hne.
  - exists []. rewrite app_nil_r. simpl.
    split; [reflexivity|]. split; [exact Hnd|]. split; [exact Hne|].
    intros url. split; [intros [] | intros [[_ [x [[] _]]] _]].
  - simpl. fold preloadUrl. fold preloadImages.
    assert (Hskip : (forall url, url_of [item] url -> In url seen) ->
                    exists new,
                      preloadImages rest seen seen = (seen ++ new, seen ++ new)
                      /\ NoDup (seen ++ new)
                      /\ ~ In EmptyString (seen ++ new)
                      /\ (forall url, In url new
                                      <-> url_of (item :: rest) url /\ ~ In url seen)).
    { intros Hold. destruct (IH seen Hnd Hne) as [new (H1 & H2 & H3 & H4)].
      exists new. split; [exact H1|]. split; [exact H2|]. split; [exact H3|].
      intros url. rewrite H4, url_of_cons. split.
      - intros [Hu Hs]. auto.
      - intros [[[Hne' Hx]|Hu] Hs]; [|auto].
        exfalso. apply Hs. apply Hold. split; [exact Hne'|].
        exists item. split; [left; reflexivity | exact Hx]. }
    destruct (String.eqb (preloadUrl item) EmptyString) eqn:E0.
    + simpl. apply Hskip. intros url [Hne' [x [[<-|[]] Hx]]].
      apply String.eqb_eq in E0. congruence.
    + destruct (seen_has seen (preloadUrl item)) eqn:E1; simpl.
      * apply Hskip. intros url [Hne' [x [[<-|[]] Hx]]].
        apply seen_has_In in E1. congruence.
      * assert (Hnot : ~ In (preloadUrl item) seen).
        { intros Hin. apply seen_has_In in Hin. congruence. }
        apply String.eqb_neq in E0.
        destruct (IH (seen ++ [preloadUrl item])) as [new (H1 & H2 & H3 & H4)].
        { apply NoDup_app; [exact Hnd | repeat constructor; intros [] |].
          intros a Ha [<-|[]]. contradiction. }
        { rewrite in_app_iff. intros [H|[H|[]]]; [contradiction | congruence]. }
        exists (preloadUrl item :: new).
        replace (seen ++ preloadUrl item :: new)
          with ((seen ++ [preloadUrl item]) ++ new)
          by (rewrite <- app_assoc; reflexivity).
        split; [exact H1|]. split; [exact H2|]. split; [exact H3|].
        intros url. rewrite url_of_cons. simpl. rewrite H4, in_app_iff. simpl.
        split.
        -- intros [<- | [Hu Hs]]; [tauto|]. tauto.
        -- intros [[[Hne' Hx] | Hu] Hs].
           ++ left. exact Hx.
           ++ destruct (String.eqb (preloadUrl item) url) eqn:E.
              ** apply String.eqb_eq in E. left. exact E.
              ** apply String.eqb_neq in E. right. tauto.
Qed.

(** A batch whose images have all been requested requests nothing. *)
Lemma preloadImages_again (batch : list T) (seen requested : list string) :
  (forall url, url_of batch url -> In url seen) ->
  preloadImages batch seen requested = (seen, requested).
Proof.
  induction batch as [|item rest IH]; intros Hall; [reflexivity|].
  simpl. fold preloadUrl. fold preloadImages.
  destruct (String.eqb (preloadUrl item) EmptyString) eqn:E0; simpl.
  - apply IH. intros url Hu. apply Hall. apply url_of_cons. auto.
  - assert (Hin : In (preloadUrl item) seen).
    { apply Hall. apply url_of_cons. left. apply String.eqb_neq in E0. auto. }
    apply seen_has_In in Hin. rewrite Hin. simpl.
    apply IH. intros url Hu. apply Hall. apply url_of_cons. auto.
Qed.

Lemma preloadAll_snoc (batches : list (list T)) (batch : list T) :
  preloadAll (batches ++ [batch])
  = preloadImages batch (fst (preloadAll batches)) (snd (preloadAll batches)).
Proof. exact (fold_left_app _ _ _ _). Qed.

Lemma preloadAll_spec (batches : list (list T)) :
  exists requested,
    preloadAll batches = (requested, requested)
    /\ NoDup requested
    /\ ~ In EmptyString requested
    /\ (forall url, In url requested
                    <-> exists batch, In batch batches /\ url_of batch url).
Proof.
  induction batches as [|batch batches IH] using rev_ind.
  - exists []. split; [reflexivity|]. split; [constructor|].
    split; [intros []|]. intros url. split; [intros [] | intros [b [[] _]]].
  - destruct IH as [seen (H1 & H2 & H3 & H4)].
    rewrite preloadAll_snoc, H1. simpl fst. simpl snd.
    destruct (preloadImages_spec batch seen H2 H3) as [new (G1 & G2 & G3 & G4)].
    exists (seen ++ new). split; [exact G1|]. split; [exact G2|].
    split; [exact G3|].
    intros url. rewrite in_app_iff, H4, G4. split.
    + intros [[b [Hb Hu]] | [Hu _]].
      * exists b. split; [apply in_or_app; left; exact Hb | exact Hu].
      * exists batch. split; [apply in_or_app; right; left; reflexivity | exact Hu].
    + intros [b [Hb Hu]]. apply in_app_or in Hb. destruct Hb as [Hb | [<- | []]].
      * left. eauto.
      * destruct (in_dec string_dec url seen) as [Hin|Hout].
        -- left. apply H4. exact Hin.
        -- right. auto.
Qed.

(** X16. Every image is requested at most once in the life of a
    component: over any sequence of [preloadImages] calls the requests are
    pairwise distinct and never for the empty URL, they are exactly the
    non-empty URLs of the items given ([getItemImage(item)], or
    [item.image] when that is empty), the set [preloadedImagesRef] holds
    the requested URLs, and giving a batch again requests nothing. *)
Theorem images_requested_once (batches : list (list T)) :
  let seen := fst (preloadAll batches) in
  let requested := snd (preloadAll batches) in
  seen = requested
  /\ NoDup requested
  /\ ~ In EmptyString requested
  /\ (forall url,
        In url requested
        <-> url <> EmptyString
            /\ exists batch item,
                 In batch batches /\ In item batch /\ preloadUrl item = url)
  /\ (forall batch, In batch batches ->
        preloadAll (batches ++ [batch]) = preloadAll batches).
Proof.
  destruct (preloadAll_spec batches) as [requested (H1 & H2 & H3 & H4)].
  cbv zeta. rewrite H1. simpl fst. simpl snd.
  split; [reflexivity|]. split; [exact H2|]. split; [exact H3|]. split.
  - intros url. rewrite H4. unfold url_of. split.
    + intros [b [Hb [Hne [x [Hx Hu]]]]]. split; [exact Hne|]. eauto.
    + intros [Hne [b [x [Hb [Hx Hu]]]]]. exists b. eauto.
  - intros batch Hb. rewrite preloadAll_snoc, H1. simpl fst. simpl snd.
    apply preloadImages_again. intros url Hu. apply H4. eauto.
Qed.

End PreloadFacts.

(** * The concrete reel, run *)

Lemma demo_rnd_valid : valid_rnd demo_rnd.
Proof.
  intros n. unfold demo_rnd.
  assert (H : (n mod 3 < 3)%nat) by (apply Nat.mod_upper_bound; discriminate).
  set (m := (n mod 3)%nat) in *.
  unfold Qle, Qlt. cbn [Qnum Qden]. lia.
Qed.

Lemma demo_clock_advances : clocks_advance demo_clock.
Proof.
  split.
  - intros B n. exists (n + Z.to_nat B)%nat. split; [lia|].
    unfold demo_clock. cbn [date]. lia.
  - intros B n. exists (n + Z.to_nat (Qceiling B))%nat. split; [lia|].
    unfold demo_clock. cbn [perf].
    apply Qle_trans with (inject_Z (Qceiling B)); [apply Qle_ceiling|].
    rewrite <- Zle_Qle. lia.
Qed.

Lemma demo_itemTotal_nonzero : ~ itemTotal demo_forced == 0.
Proof. intros H. vm_compute in H. discriminate H. Qed.

Lemma demo_random_itemTotal_nonzero : ~ itemTotal demo_random == 0.
Proof. intros H. vm_compute in H. discriminate H. Qed.

Lemma demo_forced_spinning :
  Reachable demo_forced (spin demo_forced 0 demo_rnd (mount demo_forced demo_rnd)).
Proof.
  apply (reach_step demo_forced (CallSpin 0 demo_rnd)).
  - apply reach_mount, demo_rnd_valid.
  - exact demo_rnd_valid.
Qed.

(** The example of the specification, run: [onSpinEnd(B)] fires once, 2928
    ms after the start, and index 30 of the sequence holds [B]. *)
Example demo_forced_run :
  trace (host_run demo_forced demo_clock 0 200
           (spin demo_forced 0 demo_rnd (mount demo_forced demo_rnd)))
  = [SpinStart 1 0; SpinEnd 1 "B"%string (inject_Z 2928)]
  /\ nth_error (buildItems demo_forced demo_rnd) 30 = Some "B"%string.
Proof. split; vm_compute; reflexivity. Qed.

(** A random spin of the same reel lands on index 30 of its sequence. *)
Example demo_random_run :
  trace (host_run demo_random demo_clock 0 200
           (spin demo_random 0 demo_rnd (mount demo_random demo_rnd)))
  = [SpinStart 1 0; SpinEnd 1 "A"%string (inject_Z 2928)]
  /\ nth_error (buildItems demo_random demo_rnd) 30 = Some "A"%string.
Proof. split; vm_compute; reflexivity. Qed.

(** With a host whose frames run ahead of the wall clock the motion is over
    early, and [completeOnce] waits on the finish timer. *)
Example demo_deferred_run :
  let fast i := mkClock (inject_Z (Z.of_nat i)) (100 * Z.of_nat i) in
  let s n := host_run demo_forced fast 0 n
               (spin demo_forced 0 demo_rnd (mount demo_forced demo_rnd)) in
  trace (s 40%nat) = [SpinStart 1 0]
  /\ map (fun t => fst (snd t)) (timers (s 40%nat)) = [2861%Z]
  /\ trace (s 3000%nat) = [SpinStart 1 0; SpinEnd 1 "B"%string (inject_Z 2900)].
Proof. repeat split; vm_compute; reflexivity. Qed.

(** Outside the valid configurations a spin still ends, but silently: with
    a reel of no items the resolved index 0 is not an index, with items of
    no footprint it is [NaN]; either way [completeOnce] skips [onSpinEnd]. *)
Example demo_no_reel_run :
  let s := host_run demo_no_reel demo_clock 0 200
             (spin demo_no_reel 0 demo_rnd (mount demo_no_reel demo_rnd)) in
  trace s = [SpinStart 1 0] /\ isSpinningRef s = false
  /\ timers s = [] /\ frames s = [].
Proof. repeat split; vm_compute; reflexivity. Qed.

Example demo_flat_run :
  let s := host_run demo_flat demo_clock 0 200
             (spin demo_flat 0 demo_rnd (mount demo_flat demo_rnd)) in
  clampedClosestIndexOf demo_flat (spinEnv demo_flat 1 demo_rnd) = NaN
  /\ trace s = [SpinStart 1 0] /\ isSpinningRef s = false
  /\ timers s = [] /\ frames s = [].
Proof. repeat split; vm_compute; reflexivity. Qed.

Lemma spin_end_once_after_minimum_witness :
  exists n item t1,
    trace (host_run demo_forced demo_clock 0 n
             (spin demo_forced 0 demo_rnd (mount demo_forced demo_rnd)))
    = [SpinStart 1 0; SpinEnd 1 item t1]
    /\ 2900 <= t1.
Proof.
  destruct (spin_end_once_after_minimum demo_forced
              (mount demo_forced demo_rnd) 0 demo_rnd demo_clock)
    as [(n & item & t1 & Htr & _ & _ & Ht & _) _].
  - apply reach_mount, demo_rnd_valid.
  - reflexivity.
  - discriminate.
  - exact demo_rnd_valid.
  - split; [reflexivity | split; [reflexivity |]].
    vm_compute. intros H. discriminate H.
  - exact demo_clock_advances.
  - exists n, item, t1. split; [exact Htr | exact Ht].
Defined.

Lemma forced_result_delivered_witness :
  zlen (buildItems demo_forced demo_rnd) = 35%Z
  /\ nth_error (buildItems demo_forced demo_rnd) 30 = Some "B"%string
  /\ guarded_item (spinEnv demo_forced 1 demo_rnd)
                  (clampedClosestIndexOf demo_forced (spinEnv demo_forced 1 demo_rnd))
     = Some "B"%string.
Proof.
  destruct (forced_result_delivered demo_forced "B"%string) as (H1 & H2 & _).
  - reflexivity.
  - vm_compute. intros H. discriminate H.
  - vm_compute. intros H. discriminate H.
  - destruct (H1 demo_rnd) as [Hlen Hnth].
    split; [exact Hlen | split; [exact Hnth | exact (H2 1%nat demo_rnd)]].
Defined.

(** A second [spin()] seven milliseconds into the first: one start, one
    end, both of the first call. *)
Example demo_double_spin_run :
  trace (host_run demo_forced demo_clock 0 200
           (run demo_forced [CallSpin 0 demo_rnd; CallSpin 7 demo_rnd]
                (mount demo_forced demo_rnd)))
  = [SpinStart 1 0; SpinEnd 1 "B"%string (inject_Z 2928)].
Proof. vm_compute. reflexivity. Qed.

Lemma spin_while_live_is_noop_witness :
  spin demo_forced 7 demo_rnd
       (spin demo_forced 0 demo_rnd (mount demo_forced demo_rnd))
  = spin demo_forced 0 demo_rnd (mount demo_forced demo_rnd).
Proof.
  destruct (spin_while_live_is_noop demo_forced _ demo_forced_spinning)
    as (Hlive & _).
  destruct (Hlive eq_refl) as (Hnoop & _).
  apply Hnoop.
Defined.

(** A spin of the example, 100 callbacks in. *)
Lemma demo_midspin_reachable :
  Reachable demo_forced
            (host_run demo_forced demo_clock 0 100
               (spin demo_forced 0 demo_rnd (mount demo_forced demo_rnd))).
Proof. apply Reachable_host_run. exact demo_forced_spinning. Qed.

(** There a frame request is pending, and the cleanup cancels it. *)
Example demo_midspin_pending :
  let s := host_run demo_forced demo_clock 0 100
             (spin demo_forced 0 demo_rnd (mount demo_forced demo_rnd)) in
  map fst (frames s) = [101%nat] /\ animationFrameRef s = Some 101%nat
  /\ frames (unmount s) = [] /\ trace s = [SpinStart 1 0].
Proof. repeat split; vm_compute; reflexivity. Qed.

Lemma unmount_cancels_everything_witness :
  timers (unmount (host_run demo_forced demo_clock 0 100
                     (spin demo_forced 0 demo_rnd (mount demo_forced demo_rnd))))
  = []
  /\ frames (unmount (host_run demo_forced demo_clock 0 100
                        (spin demo_forced 0 demo_rnd (mount demo_forced demo_rnd))))
     = [].
Proof.
  destruct (unmount_cancels_everything demo_forced _ demo_midspin_reachable)
    as (Hq & Hf & _).
  split; [exact Hq | exact Hf].
Defined.

Lemma one_callback_pending_witness :
  (length (timers (host_run demo_forced demo_clock 0 100
                     (spin demo_forced 0 demo_rnd (mount demo_forced demo_rnd))))
   + length (frames (host_run demo_forced demo_clock 0 100
                       (spin demo_forced 0 demo_rnd (mount demo_forced demo_rnd))))
   <= 1)%nat.
Proof.
  exact (proj1 (one_callback_pending demo_forced _ demo_midspin_reachable)).
Defined.

Lemma empty_pool_spin_is_noop_witness :
  spin demo_empty 0 demo_rnd (mount demo_empty demo_rnd)
  = mount demo_empty demo_rnd.
Proof.
  exact (proj1 (empty_pool_spin_is_noop demo_empty 0 demo_rnd
                  (mount demo_empty demo_rnd)) eq_refl).
Defined.

Lemma unforced_result_in_pool_witness :
  Forall (fun x => In x demo_pool) (buildItems demo_random demo_rnd).
Proof.
  destruct (unforced_result_in_pool demo_random) as (H & _).
  - reflexivity.
  - discriminate.
  - exact (H demo_rnd demo_rnd_valid).
Defined.

Lemma jitter_keeps_target_index_witness :
  round (sub (whole 17)
             (div (Fin (targetTranslateOf demo_random 17 30 (3 # 4)))
                  (Fin (itemTotal demo_random))))
  = whole 30.
Proof.
  destruct (jitter_keeps_target_index demo_random 17 30 (3 # 4) 1 demo_rnd)
    as (_ & _ & H & _).
  - discriminate.
  - reflexivity.
  - exact demo_rnd_valid.
  - exact demo_random_itemTotal_nonzero.
  - exact H.
Defined.

Lemma motion_follows_ease_out_witness :
  equiv (currentTranslateValue demo_forced (spinEnv demo_forced 1 demo_rnd) 1000)
        (Fin (position_law 0 (targetTranslate (spinEnv demo_forced 1 demo_rnd))
                           (inject_Z 1000) 2500)).
Proof.
  destruct (motion_follows_ease_out demo_forced (spinEnv demo_forced 1 demo_rnd)
                                    1000 30) as (_ & H & _).
  - intros H. vm_compute in H. discriminate H.
  - intros H. vm_compute in H. discriminate H.
  - exact H.
Defined.

Lemma unforced_index_deterministic_witness :
  clampedClosestIndexOf demo_random (spinEnv demo_random 1 demo_rnd) = whole 30.
Proof.
  destruct (unforced_index_deterministic demo_random 1 demo_rnd) as (H & _).
  - reflexivity.
  - exact demo_rnd_valid.
  - exact demo_random_itemTotal_nonzero.
  - exact H.
Defined.

(** With a negative forced index every entry of the sequence is a random
    draw from the pool. *)
Lemma demo_negative_sequence (rnd : nat -> Q) :
  valid_rnd rnd ->
  zlen (buildItems demo_negative rnd) = 35%Z
  /\ Forall (fun x => In x demo_pool) (buildItems demo_negative rnd).
Proof.
  intros Hr.
  rewrite (buildItems_forced_negative demo_negative rnd "Z"%string eq_refl)
    by (vm_compute; reflexivity).
  split.
  - rewrite generateItems_length. vm_compute. reflexivity.
  - unfold generateItems.
    apply (generate_in_pool demo_negative _ rnd 0 Hr). discriminate.
Qed.

(** C2. The forced result is not delivered when [forcedTargetIndex] is
    negative, although the reel is long enough
    ([reelItemCount >= forcedTargetIndex + 1]): with the pool [A, B, C], the
    forced item [Z], a reel of 35 and [forcedTargetIndex = -1] the sequence
    has 35 entries, all drawn from the pool and none of them [Z], whatever
    the draws; the spin resolves to index 0 and [onSpinEnd] is given the
    pool item there, [A] in the run of the example. *)
Theorem forced_result_lost_below_zero :
  forcedResult demo_negative = Some "Z"%string
  /\ (forcedTargetIndex demo_negative + 1 <=? reelItemCount demo_negative)%Z = true
  /\ (forall rnd, valid_rnd rnd ->
        zlen (buildItems demo_negative rnd) = reelItemCount demo_negative
        /\ Forall (fun x => In x demo_pool /\ x <> "Z"%string)
                  (buildItems demo_negative rnd))
  /\ (forall k rnd, valid_rnd rnd ->
        clampedClosestIndexOf demo_negative (spinEnv demo_negative k rnd) = whole 0
        /\ exists x,
             guarded_item (spinEnv demo_negative k rnd)
                          (clampedClosestIndexOf demo_negative
                             (spinEnv demo_negative k rnd)) = Some x
             /\ In x demo_pool /\ x <> "Z"%string)
  /\ trace (host_run demo_negative demo_clock 0 200
              (spin demo_negative 0 demo_rnd (mount demo_negative demo_rnd)))
     = [SpinStart 1 0; SpinEnd 1 "A"%string (inject_Z 2928)].
Proof.
  assert (Hpool : forall x : string, In x demo_pool -> x <> "Z"%string).
  { intros x [<-|[<-|[<-|[]]]]; discriminate. }
  split; [reflexivity|]. split; [reflexivity|].
  split; [|split].
  - intros rnd Hr. destruct (demo_negative_sequence rnd Hr) as [Hlen Hin].
    split; [exact Hlen|].
    apply Forall_forall. intros x Hx.
    rewrite Forall_forall in Hin. split; [|apply Hpool]; apply Hin; exact Hx.
  - intros k rnd Hr. destruct (demo_negative_sequence rnd Hr) as [Hlen Hin].
    assert (Hc : clampedClosestIndexOf demo_negative (spinEnv demo_negative k rnd)
                 = whole 0).
    { unfold clampedClosestIndexOf, spinEnv. cbn [isForced updatedItems].
      rewrite (isForcedP_Some demo_negative "Z"%string eq_refl), Hlen.
      reflexivity. }
    split; [exact Hc|]. rewrite Hc, guarded_item_whole.
    change (updatedItems (spinEnv demo_negative k rnd))
      with (buildItems demo_negative rnd).
    rewrite Hlen.
    change ((0 <=? 0)%Z && (0 <? 35)%Z) with true. cbv iota.
    change (Z.to_nat 0) with 0%nat.
    rewrite Forall_forall in Hin.
    destruct (buildItems demo_negative rnd) as [|x l].
    + unfold zlen in Hlen. simpl in Hlen. discriminate.
    + exists x. split; [reflexivity|].
      assert (Hx : In x demo_pool) by (apply Hin; left; reflexivity).
      split; [exact Hx | apply Hpool; exact Hx].
  - vm_compute. reflexivity.
Qed.

(** C6. The forced index is clamped only when the spin resolves, not when
    the sequence is built.  With [forcedTargetIndex = 40] on a reel of 35 the
    sequence has 41 entries, the forced item at index 40.  With
    [forcedTargetIndex = -1] the sequence has 35 entries, none of them the
    forced item [Z]; the spin resolves to index 0 and reports the random item
    there. *)
Theorem forced_index_not_clamped :
  (reelItemCount demo_beyond = 35%Z
   /\ zlen (buildItems demo_beyond demo_rnd) = 41%Z
   /\ nth_error (buildItems demo_beyond demo_rnd) 40 = Some "Z"%string
   /\ clampedClosestIndexOf demo_beyond (spinEnv demo_beyond 1 demo_rnd)
      = whole 40)
  /\ (zlen (buildItems demo_negative demo_rnd) = 35%Z
      /\ existsb (String.eqb "Z") (buildItems demo_negative demo_rnd) = false
      /\ clampedClosestIndexOf demo_negative (spinEnv demo_negative 1 demo_rnd)
         = whole 0
      /\ trace (host_run demo_negative demo_clock 0 200
                  (spin demo_negative 0 demo_rnd (mount demo_negative demo_rnd)))
         = [SpinStart 1 0; SpinEnd 1 "A"%string (inject_Z 2928)]).
Proof. repeat split; vm_compute; reflexivity. Qed.

(** * The concrete reel, further *)


Lemma demo_reel_length : zlen (buildItems demo_forced demo_rnd) = 35%Z.
Proof. vm_compute. reflexivity. Qed.

Lemma centre_index_round_trip_witness :
  closestToCenterIndex demo_forced (buildItems demo_forced demo_rnd)
    (Fin (- getItemPosition demo_forced 30
              (zlen (buildItems demo_forced demo_rnd) / 2) + 50))
  = whole 30.
Proof.
  destruct (centre_index_round_trip demo_forced (buildItems demo_forced demo_rnd)
              30 50 0) as (_ & H & _).
  - exact demo_itemTotal_nonzero.
  - rewrite demo_reel_length. lia.
  - vm_compute. reflexivity.
  - exact H.
Defined.

Lemma reel_items_from_pool_witness :
  Forall (fun x => In x (itemsPool demo_forced) \/ forcedResult demo_forced = Some x)
         (items (host_run demo_forced demo_clock 0 100
                   (spin demo_forced 0 demo_rnd (mount demo_forced demo_rnd)))).
Proof.
  exact (proj1 (reel_items_from_pool demo_forced _ demo_midspin_reachable)).
Defined.

Lemma callbacks_alternate_witness :
  exists closed,
    Paired 1 closed
           (trace (host_run demo_forced demo_clock 0 100
                     (spin demo_forced 0 demo_rnd (mount demo_forced demo_rnd))))
    /\ closed = false.
Proof.
  destruct (callbacks_alternate demo_forced _ demo_midspin_reachable)
    as [[closed [HP Hc]] _].
  exists closed. split; [exact HP | apply Hc; vm_compute; reflexivity].
Defined.

Lemma is_spinning_mirrors_ref_witness :
  isSpinning (run demo_forced [CallSpin 0 demo_rnd] (mount demo_forced demo_rnd))
  = isSpinningRef (run demo_forced [CallSpin 0 demo_rnd] (mount demo_forced demo_rnd)).
Proof.
  apply (is_spinning_mirrors_ref demo_forced demo_rnd [CallSpin 0 demo_rnd]).
  repeat constructor. discriminate.
Defined.

Lemma demo_forced_started :
  in_phase demo_forced (spinEnv demo_forced 1 demo_rnd) [SpinStart 1 0] 0 PhStart
           (spin demo_forced 0 demo_rnd (mount demo_forced demo_rnd)).
Proof.
  apply (spin_starts demo_forced 0 demo_rnd (mount demo_forced demo_rnd)).
  - apply Reachable_Inv, reach_mount, demo_rnd_valid.
  - reflexivity.
  - discriminate.
Qed.

Lemma phases_in_order_witness :
  (exists ph',
      in_phase demo_forced (spinEnv demo_forced 1 demo_rnd) [SpinStart 1 0] 0 ph'
               (host_step demo_forced (demo_clock 0)
                  (spin demo_forced 0 demo_rnd (mount demo_forced demo_rnd)))
      /\ (phase_rank PhStart <= phase_rank ph' <= S (phase_rank PhStart))%nat
      /\ trace (host_step demo_forced (demo_clock 0)
                  (spin demo_forced 0 demo_rnd (mount demo_forced demo_rnd)))
         = [SpinStart 1 0])
  \/ (PhStart = PhComplete
      /\ finished demo_forced (spinEnv demo_forced 1 demo_rnd) [SpinStart 1 0]
                  (perf (demo_clock 0))
                  (host_step demo_forced (demo_clock 0)
                     (spin demo_forced 0 demo_rnd (mount demo_forced demo_rnd)))).
Proof.
  apply (phases_in_order demo_forced (spinEnv demo_forced 1 demo_rnd)
           [SpinStart 1 0] 0 PhStart (demo_clock 0)).
  - reflexivity.
  - reflexivity.
  - exact demo_forced_started.
Defined.

Lemma motion_never_overshoots_witness :
  easedShare (duration demo_forced) 1000 <= easedShare (duration demo_forced) 2000
  /\ easedShare (duration demo_forced) 2000 <= 1.
Proof.
  destruct (motion_never_overshoots demo_forced (spinEnv demo_forced 1 demo_rnd)
              30 1000 2000) as (_ & _ & (_ & H1 & H2 & _) & _).
  - reflexivity.
  - reflexivity.
  - lia.
  - split; [exact H1 | exact H2].
Defined.

Lemma twist_back_undoes_jitter_witness :
  clampedClosestIndexOf demo_random (spinEnv demo_random 1 demo_rnd)
  = whole (targetIndexOf demo_random (buildItems demo_random demo_rnd))
  /\ equiv (offsetToPerfectOf demo_random (spinEnv demo_random 1 demo_rnd)
              (clampedClosestIndexOf demo_random (spinEnv demo_random 1 demo_rnd)))
           (Fin (- randomOffset demo_random
                     (demo_rnd (length (buildItems demo_random demo_rnd))))).
Proof.
  destruct (twist_back_undoes_jitter demo_random 1 demo_rnd) as (H1 & H2 & _).
  - exact demo_rnd_valid.
  - split; [vm_compute; intros H; discriminate H
           | exact demo_random_itemTotal_nonzero].
  - split; [exact H1 | exact H2].
Defined.


(** With frames that run ahead of the wall clock the motion of the
    example is over after 30 callbacks, 30 ms after the start. *)
Lemma demo_fast_settled :
  in_phase demo_forced (spinEnv demo_forced 1 demo_rnd) [SpinStart 1 0] 0 PhComplete
           (host_run demo_forced demo_fast_clock 0 30
              (spin demo_forced 0 demo_rnd (mount demo_forced demo_rnd))).
Proof.
  split; [constructor; vm_compute; reflexivity|].
  split; [vm_compute; reflexivity|].
  exists 31%nat, 50%Z. vm_compute. reflexivity.
Qed.

Lemma one_deferral_suffices_witness :
  let s := host_run demo_forced demo_fast_clock 0 30
             (spin demo_forced 0 demo_rnd (mount demo_forced demo_rnd)) in
  let s1 := host_step demo_forced (demo_fast_clock 30) s in
  trace s1 = [SpinStart 1 0]
  /\ map (fun t => fst (snd t)) (timers s1) = [2870%Z]
  /\ finished demo_forced (spinEnv demo_forced 1 demo_rnd) [SpinStart 1 0]
              (inject_Z 2900)
              (host_step demo_forced (mkClock (inject_Z 2900) 290000) s1).
Proof.
  intros s s1.
  destruct (one_deferral_suffices demo_forced (spinEnv demo_forced 1 demo_rnd)
              [SpinStart 1 0] 0 (demo_fast_clock 30)
              (mkClock (inject_Z 2900) 290000) s)
    as ([id Hq] & Htr & _ & _ & _ & Hfin).
  - exact demo_fast_settled.
  - vm_compute. reflexivity.
  - split; [exact Htr|]. split.
    + fold s1 in Hq. rewrite Hq. vm_compute. reflexivity.
    + apply Hfin. vm_compute. intros H. discriminate H.
Defined.
